(** * ci-app: the insight pipeline of [src/App.tsx]

    A shallow embedding of the logic of the Competitive Intelligence app:
    the severity classifier [inferSeverity], the battle-card generator
    [toBattleCard], the feed filter [filtered], the team-update composer
    [markdown] and the curation step [curate].

    Strings are [string]s of 8-bit characters and stand for ASCII text:
    [toLowerCase] folds [A-Z] and [trim] strips the ASCII white space; code
    units above 127 are carried along unchanged.  Where a statement says
    exactly which strings match, the host's [String.prototype.toLowerCase]
    and [trim], which follow Unicode, are parameters instead ([inferSeverityH],
    [filteredH]); the ASCII functions are then one host among others. *)

From Stdlib Require Import ZArith Ascii String List Bool Lia.
From stdpp Require Import base option list gmap strings pretty.

Local Open Scope Z_scope.

#[local] Arguments String.append : simpl nomatch.
#[local] Set Default Proof Using "Type".

(** ** Strings: the methods of [String.prototype] and [Array.prototype] used *)

Module JS.

(** [c.toLowerCase()] on one code unit. *)
Definition lowerChar (c : ascii) : ascii :=
  let n := nat_of_ascii c in
  if ((65 <=? n)%nat && (n <=? 90)%nat)%bool then ascii_of_nat (n + 32) else c.

Fixpoint toLowerCase (s : string) : string :=
  match s with
  | EmptyString => EmptyString
  | String c s' => String (lowerChar c) (toLowerCase s')
  end.

(** [s.startsWith(q)] *)
Fixpoint startsWith (q s : string) : bool :=
  match q, s with
  | EmptyString, _ => true
  | String a q', String b s' => if Ascii.eqb a b then startsWith q' s' else false
  | String _ _, EmptyString => false
  end.

(** [s.includes(q)]: [q] occurs in [s] as a contiguous substring. *)
Fixpoint includes (q s : string) : bool :=
  startsWith q s ||
  match s with
  | EmptyString => false
  | String _ s' => includes q s'
  end.

(** [l.join(sep)] on an array of strings. *)
Fixpoint join (sep : string) (l : list string) : string :=
  match l with
  | [] => EmptyString
  | [x] => x
  | x :: l' => x +:+ sep +:+ join sep l'
  end.

Definition isWhiteSpace (c : ascii) : bool := Ascii.is_space c.

Fixpoint trimStart (s : string) : string :=
  match s with
  | EmptyString => EmptyString
  | String c s' => if isWhiteSpace c then trimStart s' else s
  end.

Fixpoint trimEnd (s : string) : string :=
  match s with
  | EmptyString => EmptyString
  | String c s' =>
      match trimEnd s' with
      | EmptyString => if isWhiteSpace c then EmptyString else String c EmptyString
      | r => String c r
      end
  end.

(** [s.trim()] *)
Definition trim (s : string) : string := trimEnd (trimStart s).

(** Truthiness of a string: only the empty string is falsy. *)
Definition truthy (s : string) : bool :=
  match s with EmptyString => false | _ => true end.

(** [l.includes(x)] on an array of strings: element equality. *)
Definition arrayIncludes (x : string) (l : list string) : bool :=
  existsb (String.eqb x) l.

(** Regular expressions of the shape used by the classifier: alternations of
    literals, tested without anchors. *)
Inductive regex : Type :=
  | Lit (s : string)
  | Alt (r1 r2 : regex).

Fixpoint test (r : regex) (s : string) : bool :=
  match r with
  | Lit l => includes l s
  | Alt r1 r2 => test r1 s || test r2 s
  end.

Fixpoint literals (r : regex) : list string :=
  match r with
  | Lit l => [l]
  | Alt r1 r2 => literals r1 ++ literals r2
  end.

(** JavaScript numbers as far as the date comparisons need them: the time
    value of a [Date] is [NaN] or an integral number of milliseconds, and the
    filter compares it with [-Infinity] and [Infinity]. *)
Inductive number : Type :=
  | NaN
  | NegInfinity
  | Infinity
  | Num (z : Z).

(** [a <= b] *)
Definition le (a b : number) : bool :=
  match a, b with
  | NaN, _ | _, NaN => false
  | NegInfinity, _ => true
  | _, Infinity => true
  | Num x, Num y => x <=? y
  | _, _ => false
  end.

(** [a >= b] *)
Definition ge (a b : number) : bool := le b a.

(** *** A concrete [Date] environment: UTC, locale en-US

    [Date.parse] and [toLocaleString] depend on the host; the pipeline below is
    parametric in them.  This instance reads the two ISO shapes the app meets
    ([YYYY-MM-DD] from the date inputs, [YYYY-MM-DDTHH:mm:ss(.sss)Z] from
    [toISOString]) and gives [None], the time value [NaN], on anything else. *)

Definition digit (c : ascii) : option Z :=
  let n := nat_of_ascii c in
  if ((48 <=? n)%nat && (n <=? 57)%nat)%bool then Some (Z.of_nat (n - 48)) else None.

Fixpoint digits (n : nat) (acc : Z) (s : string) : option (Z * string) :=
  match n, s with
  | O, _ => Some (acc, s)
  | S n', String c s' => d ← digit c; digits n' (10 * acc + d) s'
  | S _, EmptyString => None
  end.

Definition expect (c : ascii) (s : string) : option string :=
  match s with
  | String c' s' => if Ascii.eqb c c' then Some s' else None
  | EmptyString => None
  end.

Definition isLeap (y : Z) : bool :=
  ((y mod 4 =? 0) && negb (y mod 100 =? 0)) || (y mod 400 =? 0).

Definition daysInMonth (y m : Z) : Z :=
  if m =? 2 then (if isLeap y then 29 else 28)
  else if (m =? 4) || (m =? 6) || (m =? 9) || (m =? 11) then 30
  else 31.

(** Days from 1970-01-01 to the civil date [y]-[m]-[d]. *)
Definition daysFromCivil (y m d : Z) : Z :=
  let y' := if m <=? 2 then y - 1 else y in
  let era := y' / 400 in
  let yoe := y' - era * 400 in
  let doy := (153 * (if 2 <? m then m - 3 else m + 9) + 2) / 5 + d - 1 in
  let doe := yoe * 365 + yoe / 4 - yoe / 100 + doy in
  era * 146097 + doe - 719468.

(** The civil date of a day number: the inverse of [daysFromCivil]. *)
Definition civilFromDays (z : Z) : Z * Z * Z :=
  let z := z + 719468 in
  let era := z / 146097 in
  let doe := z - era * 146097 in
  let yoe := (doe - doe / 1460 + doe / 36524 - doe / 146096) / 365 in
  let doy := doe - (365 * yoe + yoe / 4 - yoe / 100) in
  let mp := (5 * doy + 2) / 153 in
  let d := doy - (153 * mp + 2) / 5 + 1 in
  let m := if mp <? 10 then mp + 3 else mp - 9 in
  (if m <=? 2 then yoe + era * 400 + 1 else yoe + era * 400, m, d).

Definition msPerDay : Z := 86400000.

Definition isoTime (s : string) : option Z :=
  '(hh, s) ← digits 2 0 s;
  s ← expect ":" s;
  '(mm, s) ← digits 2 0 s;
  s ← expect ":" s;
  '(ss, s) ← digits 2 0 s;
  '(ms, s) ← match s with
             | String "." s' => digits 3 0 s'
             | _ => Some (0, s)
             end;
  match s with
  | String "Z" EmptyString =>
      if (hh <? 24) && (mm <? 60) && (ss <? 60)
      then Some (((hh * 60 + mm) * 60 + ss) * 1000 + ms)
      else None
  | _ => None
  end.

Definition isoParse (s : string) : option Z :=
  '(y, s) ← digits 4 0 s;
  s ← expect "-" s;
  '(m, s) ← digits 2 0 s;
  s ← expect "-" s;
  '(d, s) ← digits 2 0 s;
  if (1 <=? m) && (m <=? 12) && (1 <=? d) && (d <=? daysInMonth y m) then
    let day := daysFromCivil y m d * msPerDay in
    match s with
    | EmptyString => Some day
    | String "T" s' => t ← isoTime s'; Some (day + t)
    | _ => None
    end
  else None.

Definition pad2 (n : Z) : string :=
  if n <? 10 then "0" +:+ pretty n else pretty n.

(** [d.toLocaleString("en-US", {timeZone: "UTC"})], e.g. [1/15/2024, 9:05:00 AM]. *)
Definition enUS (d : option Z) : string :=
  match d with
  | None => "Invalid Date"
  | Some t =>
      let day := t / msPerDay in
      let rest := t mod msPerDay in
      let '(y, m, dd) := civilFromDays day in
      let h := rest / 3600000 in
      let mi := (rest / 60000) mod 60 in
      let se := (rest / 1000) mod 60 in
      let h12 := if h mod 12 =? 0 then 12 else h mod 12 in
      pretty m +:+ "/" +:+ pretty dd +:+ "/" +:+ pretty y +:+ ", " +:+
      pretty h12 +:+ ":" +:+ pad2 mi +:+ ":" +:+ pad2 se +:+
      (if h <? 12 then " AM" else " PM")
  end.

End JS.

Import JS.

(** ** The date control

    The bounds of the filter are the values of two [<input type="date">]: the
    empty string, or a valid date string of the HTML standard, that is a year
    of four or more digits, greater than zero, a month and a day of that
    month.  [validDateString] tells the values the control can hold. *)
Fixpoint digitRun (s : string) : list Z * string :=
  match s with
  | EmptyString => ([], EmptyString)
  | String c s' =>
      match digit c with
      | Some d => let '(ds, rest) := digitRun s' in (d :: ds, rest)
      | None => ([], s)
      end
  end.

Definition validDateString (s : string) : bool :=
  let '(ds, rest) := digitRun s in
  let y := foldl (fun a d => 10 * a + d) 0 ds in
  (4 <=? length ds)%nat && (0 <? y) &&
  match (s1 ← expect "-" rest; '(m, s2) ← digits 2 0 s1;
         s3 ← expect "-" s2; '(d, s4) ← digits 2 0 s3; Some (m, d, s4)) with
  | Some (m, d, EmptyString) =>
      (1 <=? m) && (m <=? 12) && (1 <=? d) && (d <=? daysInMonth y m)
  | _ => false
  end.

(** ** Helpers of [App.tsx] *)

Inductive Severity : Type := critical | watch | info.

Definition criticalRe : regex := Alt (Lit "pricing") (Alt (Lit "price") (Lit "bundle")).
Definition watchRe : regex :=
  Alt (Lit "ai") (Alt (Lit "e-bidding") (Alt (Lit "e-bidding") (Lit "integration"))).

Definition inferSeverity (tags : list string) : Severity :=
  let t := toLowerCase (join " " tags) in
  if test criticalRe t then critical
  else if test watchRe t then watch
  else info.

(** ** Data model *)

(** An insight as it arrives from [data/insights.json].  [title], [summary]
    and [tags] are the properties the code guards with [?.] and [|| []]:
    [None] is a missing property ([undefined]).  [Arr] is the representation
    of the [tags] array: its elements in the value-level model, a reference
    in the store-level one. *)
Module Insight.
Record t (Arr : Type) : Type := mk {
  id : string;
  competitor : string;
  title : option string;
  summary : option string;
  sourceName : string;
  sourceUrl : string;
  date : string;
  tags : option Arr;
}.
Arguments mk {Arr}.
Arguments id {Arr}.
Arguments competitor {Arr}.
Arguments title {Arr}.
Arguments summary {Arr}.
Arguments sourceName {Arr}.
Arguments sourceUrl {Arr}.
Arguments date {Arr}.
Arguments tags {Arr}.
End Insight.

(** The object literal [base] of [toBattleCard]. *)
Module BattleCard.
Record t (Arr : Type) : Type := mk {
  headline : string;
  impact : string;
  proof : string;
  counters : Arr;
  link : string;
  tags : option Arr;
}.
Arguments mk {Arr}.
Arguments headline {Arr}.
Arguments impact {Arr}.
Arguments proof {Arr}.
Arguments counters {Arr}.
Arguments link {Arr}.
Arguments tags {Arr}.

Definition set_impact {Arr} (v : string) (b : t Arr) : t Arr :=
  mk (headline b) v (proof b) (counters b) (link b) (tags b).
Definition set_counters {Arr} (v : Arr) (b : t Arr) : t Arr :=
  mk (headline b) (impact b) (proof b) v (link b) (tags b).
End BattleCard.

(** An element of the curated list: [{ id, competitor, ...toBattleCard(i) }]. *)
Module Curated.
Record t : Type := mk {
  id : string;
  competitor : string;
  card : BattleCard.t (list string);
}.
End Curated.

Abbreviation insight := (Insight.t (list string)).
Abbreviation battleCard := (BattleCard.t (list string)).

(** A template-literal hole [${x}] for a property that may be missing. *)
Definition render (x : option string) : string :=
  match x with Some s => s | None => "undefined" end.

Definition nl : string := String "010"%char EmptyString.

(** The fixed texts of [toBattleCard]. *)
Definition baseImpact : string :=
  "Raises buyer expectations for analytics clarity and workflow fit.".
Definition baseCounters : list string :=
  [ "Emphasize time-to-value with prebuilt scorecards & fast onboarding.";
    "Show integration depth (RFP/award, APIs, export) with demos.";
    "Publish TCO story vs. bundle pricing." ].
Definition aiImpact : string :=
  "Shifts narrative to AI-assist; raises bar for search and self-serve answers.".
Definition aiCounter : string :=
  "Demo AI explainability and guardrails for regulated buyers.".
Definition pricingCounter : string :=
  "Offer side-by-side TCO with transparent tiers.".
Definition ebiddingCounter : string :=
  "Position eligibility checks at invite/award as buyer efficiency.".

(** ** The store: objects, references and in-place updates

    [toBattleCard] builds its result by mutation ([base.impact = ...],
    [base.counters.unshift(...)]) and shares the insight's [tags] array with
    the card.  The store-level model keeps arrays and objects behind
    references so that sharing and updates are explicit. *)
Module Store.

Definition loc : Type := positive.

Inductive obj : Type :=
  | Arr (elems : list string)
  | InsightObj (i : Insight.t loc)
  | CardObj (b : BattleCard.t loc).

Abbreviation store := (gmap loc obj).

(** A computation on the store; [None] is a thrown [TypeError] (also the
    access to a reference that holds no object of the expected kind). *)
Definition M (A : Type) : Type := store -> option A * store.

Definition ret {A} (a : A) : M A := fun σ => (Some a, σ).
Definition throw {A} : M A := fun σ => (None, σ).
Definition bind {A B} (m : M A) (k : A -> M B) : M B :=
  fun σ => match m σ with
           | (Some a, σ') => k a σ'
           | (None, σ') => (None, σ')
           end.

(** An object or array literal: a new reference. *)
Definition alloc (o : obj) : M loc :=
  fun σ => let l := fresh (dom σ) in (Some l, <[l:=o]> σ).

Definition getInsight (l : loc) : M (Insight.t loc) :=
  fun σ => match σ !! l with
           | Some (InsightObj i) => (Some i, σ)
           | _ => (None, σ)
           end.

Definition getCard (l : loc) : M (BattleCard.t loc) :=
  fun σ => match σ !! l with
           | Some (CardObj b) => (Some b, σ)
           | _ => (None, σ)
           end.

Definition getArr (l : loc) : M (list string) :=
  fun σ => match σ !! l with
           | Some (Arr xs) => (Some xs, σ)
           | _ => (None, σ)
           end.

(** [o.tags] used as a receiver: missing is a [TypeError]. *)
Definition required {A} (x : option A) : M A :=
  match x with Some a => ret a | None => throw end.

(** [base.impact = v] *)
Definition setImpact (l : loc) (v : string) : M unit :=
  fun σ => match σ !! l with
           | Some (CardObj b) => (Some tt, <[l:=CardObj (BattleCard.set_impact v b)]> σ)
           | _ => (None, σ)
           end.

(** [a.unshift(x)] on the array behind [a] *)
Definition unshiftArr (a : loc) (x : string) : M unit :=
  fun σ => match σ !! a with
           | Some (Arr xs) => (Some tt, <[a:=Arr (x :: xs)]> σ)
           | _ => (None, σ)
           end.

(** Reading an insight or a card back as a value. *)
Definition withTags {A B} (i : Insight.t A) (tg : option B) : Insight.t B :=
  Insight.mk (Insight.id i) (Insight.competitor i) (Insight.title i) (Insight.summary i)
             (Insight.sourceName i) (Insight.sourceUrl i) (Insight.date i) tg.

Definition readArr (σ : store) (l : loc) : option (list string) :=
  match σ !! l with Some (Arr xs) => Some xs | _ => None end.

Definition readTags (σ : store) (tg : option loc) : option (option (list string)) :=
  match tg with
  | None => Some None
  | Some a => xs ← readArr σ a; Some (Some xs)
  end.

Definition readInsight (σ : store) (l : loc) : option insight :=
  match σ !! l with
  | Some (InsightObj i) => tg ← readTags σ (Insight.tags i); Some (withTags i tg)
  | _ => None
  end.

Definition readCard (σ : store) (l : loc) : option battleCard :=
  match σ !! l with
  | Some (CardObj b) =>
      cs ← readArr σ (BattleCard.counters b);
      tg ← readTags σ (BattleCard.tags b);
      Some (BattleCard.mk (BattleCard.headline b) (BattleCard.impact b)
              (BattleCard.proof b) cs (BattleCard.link b) tg)
  | _ => None
  end.

End Store.

Import Store.

#[export] Instance M_ret : MRet M := @ret.
#[export] Instance M_bind : MBind M := fun A B k m => bind m k.

(** ** Sample data: the seed insights of [App.tsx], with the clock fixed at
    2024-03-10T12:00:00Z, and a few records used as test inputs. *)
Definition seedNow : Z := 1710072000000.

Definition i1 : insight :=
  Insight.mk "i1" "ISNetworld"
    (Some "ISN announces enhanced Workers' Comp analytics for CA/AU")
    (Some "Adds exemption tracking, historical WC data, and improved reporting; shifts customer conversations to trend analysis over doc uploads.")
    "Business Wire" "https://www.businesswire.com/newsroom"
    "2024-03-10T06:00:00.000Z"
    (Some ["Product"; "Workers' Comp"; "Analytics"]).

Definition i2 : insight :=
  Insight.mk "i2" "Avetta"
    (Some "Avetta previews AskAva 2.0 AI for contractor Q&A")
    (Some "Natural-language search across compliance artifacts; promises lower support volume and faster onboarding for suppliers.")
    "Company Blog" "https://example.com/avetta-blog"
    "2024-03-09T10:00:00.000Z"
    (Some ["AI"; "Search"; "Onboarding"]).

Definition i3 : insight :=
  Insight.mk "i3" "KPA Flex"
    (Some "KPA bundles SDS + Contractor Mgmt in platform license")
    (Some "Unified pricing (up to 50 users) emphasizes configurability and mobile access; consultative sales motion.")
    "Analyst Note" "https://example.com/analyst-memo"
    "2024-03-08T10:00:00.000Z"
    (Some ["Pricing"; "Bundling"; "Sales Motion"]).

Definition i4 : insight :=
  Insight.mk "i4" "VendorPM"
    (Some "VendorPM expands e-bidding integrations with procurement suites")
    (Some "Tighter RFP sync enables eligibility checks at invite/award and pushes compliance statuses into buyer workflows.")
    "Press Release" "https://example.com/press"
    "2024-03-10T10:30:00.000Z"
    (Some ["Integration"; "E-bidding"]).

Definition i5 : insight :=
  Insight.mk "i5" "ISNetworld"
    (Some "CultureSight adds safety climate trend breakdowns")
    (Some "Perception surveys surface SIF-leading indicators by site and trade for targeted interventions.")
    "Product Notes" "https://example.com/isn-culturesight"
    "2024-03-10T11:48:00.000Z"
    (Some ["Safety"; "Survey"; "SIF"]).

Definition seedInsights : list insight := [i1; i2; i3; i4; i5].

Definition setTags {A B} (tg : option B) (i : Insight.t A) : Insight.t B := withTags i tg.

(** [i2] with all three augmentation tags, with two of them, with the tags
    in other casings or inside longer tags, and a re-issue of [i2]. *)
Definition iAll : insight := setTags (Some ["Pricing"; "Search"; "E-bidding"; "AI"]) i2.
Definition iTwo : insight := setTags (Some ["AI"; "Pricing"]) i2.
Definition iLower : insight :=
  setTags (Some ["ai"; "pricing"; "e-bidding"; "AI-assisted"; "Pricing model"]) i2.
Definition i2' : insight :=
  Insight.mk "i2" "Avetta" (Some "Avetta ships AskAva 2.0") (Some "Now generally available.")
    "Company Blog" "https://example.com/avetta-blog-2" "2024-03-10T09:00:00.000Z"
    (Some ["AI"; "Pricing"]).

(** A store holding [i2] (reference 1, its tags behind reference 2), [i5]
    (reference 3, tags behind 4) and a second object with the content of
    [i2] (reference 5, tags behind 6). *)
Definition seedStore : store :=
  <[1%positive := InsightObj (setTags (Some 2%positive) i2)]>
  (<[2%positive := Arr ["AI"; "Search"; "Onboarding"]]>
  (<[3%positive := InsightObj (setTags (Some 4%positive) i5)]>
  (<[4%positive := Arr ["Safety"; "Survey"; "SIF"]]>
  (<[5%positive := InsightObj (setTags (Some 6%positive) i2)]>
  (<[6%positive := Arr ["AI"; "Search"; "Onboarding"]]> ∅))))).

(** [i1] as a record without [tags], and a store that holds it. *)
Definition iNoTags : insight := setTags None i1.
Definition noTagsStore : store := {[ 1%positive := InsightObj (setTags None i1) ]}.

(** A record of [insights.json] whose [date] is no date. *)
Definition iBadDate : insight :=
  Insight.mk "i6" "Avetta" (Some "Avetta roadmap webinar") (Some "Date to be announced.")
    "Company Blog" "https://example.com/avetta-webinar" "not-a-date"
    (Some ["Roadmap"]).

(** ** [load]: one run of the fetch of [data/insights.json]

    What the two awaits deliver: [fetch] rejects, or gives a response with
    its [ok] flag; its body (read only when [ok]) fails to parse, or is some
    JSON value, an array or not.  [cancelled] is the flag as the continuation
    finds it; the checks of one run follow each other without an await. *)
Inductive json : Type :=
  | JArray (data : list insight)
  | JOther.

Inductive response : Type :=
  | Rejected
  | Received (ok : bool) (body : option json).

Module AppState.
Record t : Type := mk {
  insights : list insight;
  loading : bool;
}.
Definition setInsights (v : list insight) (s : t) : t := mk v (loading s).
Definition setLoading (v : bool) (s : t) : t := mk (insights s) v.
End AppState.

(** The [try] block; [None] when it throws. *)
Definition tryLoad (cancelled : bool) (r : response) (s : AppState.t) : option AppState.t :=
  match r with
  | Rejected => None
  | Received false _ => None
  | Received true None => None
  | Received true (Some data) =>
      Some match data with
           | JArray d => if negb cancelled then AppState.setInsights d s else s
           | JOther => s
           end
  end.

Definition load (DEV cancelled : bool) (r : response) (s : AppState.t) : AppState.t :=
  let s1 :=
    match tryLoad cancelled r s with
    | Some s' => s'
    | None => if DEV && negb cancelled then AppState.setInsights seedInsights s else s
    end in
  if negb cancelled then AppState.setLoading false s1 else s1.

(** The first load and the ones of the one-minute interval, none cancelled,
    in the order in which their responses arrive. *)
Definition refresh (DEV : bool) (rs : list response) (s : AppState.t) : AppState.t :=
  foldl (fun s r => load DEV false r s) s rs.

(** ** [useLocalStorage]

    [localStorage] is [None] when access to it throws; [parse] is
    [JSON.parse] at the type of the state, [None] when it throws.  [fits]
    tells whether [setItem] succeeds. *)
Definition initialState {T} (parse : string → option T)
    (localStorage : option (gmap string string)) (key : string) (initial : T) : T :=
  match localStorage with
  | None => initial
  | Some m =>
      match m !! key with
      | Some r => if truthy r then default initial (parse r) else initial
      | None => initial
      end
  end.

Definition persist {T} (stringify : T → string) (fits : bool)
    (localStorage : option (gmap string string)) (key : string) (v : T)
  : option (gmap string string) :=
  match localStorage with
  | Some m => Some (if fits then <[key:=stringify v]> m else m)
  | None => None
  end.

Section App.

(** The host: [Date.parse] ([None] is the time value [NaN] of an invalid
    date) and [Date.prototype.toLocaleString]. *)
Variable parseDate : string -> option Z.
Variable toLocaleString : option Z -> string.

(** [new Date(s).getTime()] *)
Definition getTime (s : string) : number :=
  match parseDate s with Some z => Num z | None => NaN end.

(** [new Date(s).toLocaleString()] *)
Definition localeOf (s : string) : string := toLocaleString (parseDate s).

(** *** [toBattleCard], on values

    [base.counters.unshift(x)] on the array literal owned by [base] is [x ::].
    [insight.tags.includes] on a missing [tags] throws a [TypeError]: [None]. *)
Definition baseCard {Arr} (counters : Arr) (i : Insight.t Arr) : BattleCard.t Arr :=
  BattleCard.mk
    (Insight.competitor i +:+ ": " +:+ render (Insight.title i))
    baseImpact
    ("Source: " +:+ Insight.sourceName i +:+ " • " +:+ localeOf (Insight.date i))
    counters
    (Insight.sourceUrl i)
    (Insight.tags i).

Definition unshift (x : string) (b : battleCard) : battleCard :=
  BattleCard.set_counters (x :: BattleCard.counters b) b.

Definition toBattleCard (i : insight) : option battleCard :=
  let base := baseCard baseCounters i in
  tags ← Insight.tags i;
  let base :=
    if arrayIncludes "AI" tags
    then unshift aiCounter (BattleCard.set_impact aiImpact base)
    else base in
  let base := if arrayIncludes "Pricing" tags then unshift pricingCounter base else base in
  let base := if arrayIncludes "E-bidding" tags then unshift ebiddingCounter base else base in
  Some base.

(** *** The [filtered] memo of [App] *)
Definition optIncludes (q : string) (field : option string) : bool :=
  match field with
  | Some s => includes q (toLowerCase s)
  | None => false
  end.

Definition keep (start end_ : number) (competitor q : string) (i : insight) : bool :=
  let t := getTime (Insight.date i) in
  let inRange := ge t start && le t end_ in
  let byComp := String.eqb competitor "All" || String.eqb (Insight.competitor i) competitor in
  let byQuery :=
    negb (truthy q)
    || optIncludes q (Insight.title i)
    || optIncludes q (Insight.summary i)
    || includes q (toLowerCase (join " " (default [] (Insight.tags i)))) in
  inRange && byComp && byQuery.

Definition filtered (insights : list insight) (from to competitor query : string)
  : list insight :=
  let start := if truthy from then getTime from else NegInfinity in
  let end_ := if truthy to then getTime to else Infinity in
  let q := toLowerCase (trim query) in
  List.filter (keep start end_ competitor q) insights.

(** *** The [markdown] memo of [App]; [now] is the value of [new Date()] *)
Definition item (i : insight) : string :=
  "- **" +:+ Insight.competitor i +:+ "** — " +:+ render (Insight.title i) +:+ "  " +:+ nl +:+
  "  " +:+ render (Insight.summary i) +:+ "  " +:+ nl +:+
  "  Source: [" +:+ Insight.sourceName i +:+ "](" +:+ Insight.sourceUrl i +:+ ") • " +:+
  localeOf (Insight.date i).

Definition heading (now : Z) : string :=
  "# Competitor & Market Update" +:+ nl +:+ nl +:+ toLocaleString (Some now) +:+ nl +:+ nl.

Definition markdown (filtered : list insight) (now : Z) : string :=
  let items := map item (firstn 8 filtered) in
  heading now +:+ join (nl +:+ nl) items +:+ nl.

(** *** [curate]: the updater handed to [setCurated], applied to [prev].
    When [toBattleCard] throws, [setCurated] is not reached. *)
Definition curate (i : insight) (prev : list Curated.t) : list Curated.t :=
  match toBattleCard i with
  | Some b =>
      let c := Curated.mk (Insight.id i) (Insight.competitor i) b in
      c :: List.filter (fun x => negb (String.eqb (Curated.id x) (Curated.id c))) prev
  | None => prev
  end.

(** *** [toBattleCard], on the store: [l] refers to the insight, the result
    to the card. *)
Definition unshiftCounters (base : loc) (x : string) : M unit :=
  b ← getCard base; unshiftArr (BattleCard.counters b) x.

Definition tagsInclude (l : loc) (x : string) : M bool :=
  i ← getInsight l;
  a ← required (Insight.tags i);
  xs ← getArr a;
  mret (arrayIncludes x xs).

Definition when (c : bool) (m : M unit) : M unit := if c then m else mret tt.

(** The three augmentation rules, then [return base]. *)
Definition augment (l base : loc) : M loc :=
  ai ← tagsInclude l "AI";
  when ai (setImpact base aiImpact;; unshiftCounters base aiCounter);;
  pricing ← tagsInclude l "Pricing";
  when pricing (unshiftCounters base pricingCounter);;
  ebidding ← tagsInclude l "E-bidding";
  when ebidding (unshiftCounters base ebiddingCounter);;
  mret base.

Definition toBattleCardS (l : loc) : M loc :=
  i ← getInsight l;
  cs ← alloc (Arr baseCounters);
  base ← alloc (CardObj (baseCard cs i));
  augment l base.

(** *** [filtered], on the store: [insights] holds references, and so does
    the array [Array.prototype.filter] returns. *)
Definition getInsightValue (l : loc) : M insight :=
  i ← getInsight l;
  tg ← match Insight.tags i with
       | Some a => xs ← getArr a; mret (Some xs)
       | None => mret None
       end;
  mret (withTags i tg).

Fixpoint filterS (p : insight -> bool) (ls : list loc) : M (list loc) :=
  match ls with
  | [] => mret []
  | l :: ls' =>
      i ← getInsightValue l;
      rest ← filterS p ls';
      mret (if p i then l :: rest else rest)
  end.

Definition filteredS (insights : list loc) (from to competitor query : string)
  : M (list loc) :=
  let start := if truthy from then getTime from else NegInfinity in
  let end_ := if truthy to then getTime to else Infinity in
  let q := toLowerCase (trim query) in
  filterS (keep start end_ competitor q) insights.

(** *** The metrics of [App] *)
Definition lastSync (insights : list insight) : string :=
  match insights with
  | [] => "—"
  | i :: _ => localeOf (Insight.date i)
  end.

(** [new Set(insights.map(i => i.competitor)).size] *)
Definition coverage (insights : list insight) : nat :=
  size (list_to_set (map Insight.competitor insights) : gset string).

Definition totalSources (insights : list insight) : nat :=
  size (list_to_set (map Insight.sourceName insights) : gset string).

Definition totalItems (insights : list insight) : nat := length insights.

(** *** The classifier and the filter over the host's string functions

    [String.prototype.toLowerCase] and [String.prototype.trim] follow
    Unicode.  Here they are the parameters [lower] and [strip];
    [inferSeverity] and [filtered] above are these functions at the ASCII
    host ([toLowerCase], [trim]). *)
Definition inferSeverityH (lower : string → string) (tags : list string) : Severity :=
  let t := lower (join " " tags) in
  if test criticalRe t then critical
  else if test watchRe t then watch
  else info.

Definition optIncludesH (lower : string → string) (q : string) (field : option string)
  : bool :=
  match field with
  | Some s => includes q (lower s)
  | None => false
  end.

Definition keepH (lower : string → string) (start end_ : number)
    (competitor q : string) (i : insight) : bool :=
  let t := getTime (Insight.date i) in
  let inRange := ge t start && le t end_ in
  let byComp := String.eqb competitor "All" || String.eqb (Insight.competitor i) competitor in
  let byQuery :=
    negb (truthy q)
    || optIncludesH lower q (Insight.title i)
    || optIncludesH lower q (Insight.summary i)
    || includes q (lower (join " " (default [] (Insight.tags i)))) in
  inRange && byComp && byQuery.

Definition filteredH (lower strip : string → string)
    (insights : list insight) (from to competitor query : string) : list insight :=
  let start := if truthy from then getTime from else NegInfinity in
  let end_ := if truthy to then getTime to else Infinity in
  let q := lower (strip query) in
  List.filter (keepH lower start end_ competitor q) insights.

(** ** Specification-level notions

    [substring q s]: [q] occurs in [s].  [ciSubstring q s]: it does so up to
    letter case. *)
Definition substring (q s : string) : Prop := ∃ a b, s = a +:+ q +:+ b.

Definition ciSubstring (q s : string) : Prop :=
  substring (toLowerCase q) (toLowerCase s).

(** A filter bound as the contract types it, an optional instant, against the
    string the controls hand over: empty when absent, a date string otherwise. *)
Definition boundOf (s : string) (d : option Z) : Prop :=
  match d with
  | None => s = ""
  | Some z => s ≠ "" ∧ parseDate s = Some z
  end.

(** A malformed bound: not empty and not a date. *)
Definition malformed (s : string) : Prop := s ≠ "" ∧ parseDate s = None.

(** The three predicates of the filter contract, in the spec's words. *)
Definition specInRange (fromDate toDate : option Z) (i : insight) : Prop :=
  ∃ t, parseDate (Insight.date i) = Some t
       ∧ (∀ f, fromDate = Some f → f ≤ t)
       ∧ (∀ e, toDate = Some e → t ≤ e).

Definition specByCompetitor (competitor : string) (i : insight) : Prop :=
  competitor = "All" ∨ competitor = Insight.competitor i.

Definition specByQuery (query : string) (i : insight) : Prop :=
  query = ""
  ∨ (∃ s, Insight.title i = Some s ∧ ciSubstring query s)
  ∨ (∃ s, Insight.summary i = Some s ∧ ciSubstring query s)
  ∨ ciSubstring query (join " " (default [] (Insight.tags i))).

Definition specKeep (fromDate toDate : option Z) (competitor query : string)
    (i : insight) : Prop :=
  specInRange fromDate toDate i ∧ specByCompetitor competitor i ∧ specByQuery query i.

(** The curated cards kept for one insight id. *)
Definition cardsOf (k : string) (curated : list Curated.t) : list Curated.t :=
  List.filter (fun c => String.eqb (Curated.id c) k) curated.

(** [extends σ σ']: every object of [σ] is in [σ'], unchanged. *)
Definition extends (σ σ' : store) : Prop :=
  ∀ k o, σ !! k = Some o → σ' !! k = Some o.

(** The store while [toBattleCard] runs on the insight [io], called in the
    store [σ0]: [lc] holds the counters so far, [lb] the object [base] with
    its current impact, and everything else is as it was at the call. *)
Definition building (σ0 : store) (io : Insight.t loc) (lc lb : loc)
    (cs : list string) (imp : string) (σ : store) : Prop :=
  σ !! lc = Some (Arr cs)
  ∧ σ !! lb = Some (CardObj (BattleCard.set_impact imp (baseCard lc io)))
  ∧ ∀ k, k ≠ lc → k ≠ lb → σ !! k = σ0 !! k.

(** A tag matches a list of words when it contains one of them, up to
    letter case. *)
Definition criticalWords : list string := ["pricing"; "price"; "bundle"].
Definition watchWords : list string := ["ai"; "e-bidding"; "integration"].

Definition tagMatches (words : list string) (tag : string) : Prop :=
  ∃ w, w ∈ words ∧ ciSubstring w tag.

Definition rank (s : Severity) : nat :=
  match s with info => 0 | watch => 1 | critical => 2 end.

Fixpoint occurs (c : ascii) (s : string) : bool :=
  match s with
  | EmptyString => false
  | String c' s' => Ascii.eqb c c' || occurs c s'
  end.

(** A record whose date the host can read. *)
Definition validDate (i : insight) : Prop := is_Some (parseDate (Insight.date i)).

(** [looser a b]: the optional bound [a] admits whatever [b] admits, for a
    lower bound ([≤]) or an upper one ([≥]). *)
Definition looser (R : Z → Z → Prop) (a b : option Z) : Prop :=
  match a, b with
  | None, _ => True
  | Some _, None => False
  | Some x, Some y => R x y
  end.

(** The array that the last successful response delivered. *)
Definition arrayOf (r : response) : option (list insight) :=
  match r with
  | Received true (Some (JArray d)) => Some d
  | _ => None
  end.

(** A codec for the state of a flag: the JSON texts [true] and [false]. *)
Definition stringifyBool (b : bool) : string := if b then "true" else "false".
Definition parseBool (s : string) : option bool :=
  if String.eqb s "true" then Some true
  else if String.eqb s "false" then Some false
  else None.

(** The same notions over the host's [lower]. *)
Definition ciSubstringH (lower : string → string) (q s : string) : Prop :=
  substring (lower q) (lower s).

Definition tagMatchesH (lower : string → string) (words : list string) (tag : string)
  : Prop :=
  ∃ w, w ∈ words ∧ ciSubstringH lower w tag.

Definition specByQueryH (lower : string → string) (query : string) (i : insight) : Prop :=
  query = ""
  ∨ (∃ s, Insight.title i = Some s ∧ ciSubstringH lower query s)
  ∨ (∃ s, Insight.summary i = Some s ∧ ciSubstringH lower query s)
  ∨ ciSubstringH lower query (join " " (default [] (Insight.tags i))).

Definition specKeepH (lower : string → string) (fromDate toDate : option Z)
    (competitor query : string) (i : insight) : Prop :=
  specInRange fromDate toDate i
  ∧ specByCompetitor competitor i
  ∧ specByQueryH lower query i.

(** The filter contract read to the letter: a bound that is absent asks
    nothing of the record, and the query is taken as typed. *)
Definition claimedInRange (fromDate toDate : option Z) (i : insight) : Prop :=
  (∀ f, fromDate = Some f → ∃ t, parseDate (Insight.date i) = Some t ∧ f ≤ t)
  ∧ (∀ e, toDate = Some e → ∃ t, parseDate (Insight.date i) = Some t ∧ t ≤ e).

Definition claimedKeep (lower : string → string) (fromDate toDate : option Z)
    (competitor query : string) (i : insight) : Prop :=
  claimedInRange fromDate toDate i
  ∧ specByCompetitor competitor i
  ∧ specByQueryH lower query i.

(** ** Strings *)

Lemma app_empty_r (s : string) : s +:+ "" = s.
Proof. induction s as [|c s IH]; simpl; [done | by f_equal]. Qed.

Lemma app_assoc' (a b c : string) : (a +:+ b) +:+ c = a +:+ b +:+ c.
Proof. induction a as [|x a IH]; simpl; [done | by f_equal]. Qed.

Lemma toLowerCase_app (a b : string) :
  toLowerCase (a +:+ b) = toLowerCase a +:+ toLowerCase b.
Proof. induction a as [|x a IH]; simpl; [done | by f_equal]. Qed.

Lemma startsWith_spec (q s : string) :
  startsWith q s = true ↔ ∃ r, s = q +:+ r.
Proof.
  revert s. induction q as [|a q IH]; intros s; simpl.
  - split; [intros _; by exists s | done].
  - destruct s as [|b s].
    + split; [done | intros [r Hr]; discriminate].
    + destruct (Ascii.eqb_spec a b) as [->|Hne].
      * rewrite IH. split; intros [r Hr]; exists r; [by rewrite Hr | by injection Hr].
      * split; [done | intros [r Hr]; injection Hr as Hab _; congruence].
Qed.

Lemma includes_spec (q s : string) : includes q s = true ↔ substring q s.
Proof.
  unfold substring. induction s as [|c s IH].
  - simpl. rewrite orb_false_r, startsWith_spec. split.
    + intros [r Hr]. by exists "", r.
    + intros ([|x a] & b & Hab); [by exists b | discriminate].
  - cbn [includes]. rewrite orb_true_iff, startsWith_spec, IH. split.
    + intros [[r Hr] | (a & b & Hab)].
      * by exists "", r.
      * exists (String c a), b. simpl. by rewrite Hab.
    + intros ([|x a] & b & Hab).
      * left. by exists b.
      * right. injection Hab as _ Hs. by exists a, b.
Qed.

Lemma substring_refl (s : string) : substring s s.
Proof. exists "", "". symmetry. apply app_empty_r. Qed.

Lemma substring_trans (q t s : string) :
  substring q t → substring t s → substring q s.
Proof.
  intros (a & b & ->) (c & d & ->).
  exists (c +:+ a), (b +:+ d). by rewrite !app_assoc'.
Qed.

Lemma substring_toLowerCase (q s : string) :
  substring q s → substring (toLowerCase q) (toLowerCase s).
Proof. intros (a & b & ->). rewrite !toLowerCase_app. by eexists _, _. Qed.

Lemma substring_join (sep t : string) (l : list string) :
  t ∈ l → substring t (join sep l).
Proof.
  induction l as [|x l IH]; [by intros ?%elem_of_nil|].
  intros [->|Hin]%elem_of_cons.
  - destruct l as [|y l]; simpl; [apply substring_refl|].
    exists "", (sep +:+ join sep (y :: l)). done.
  - destruct l as [|y l]; [by apply elem_of_nil in Hin|].
    destruct (IH Hin) as (a & b & Hab).
    exists (x +:+ sep +:+ a), b.
    change (join sep (x :: y :: l)) with (x +:+ sep +:+ join sep (y :: l)).
    by rewrite Hab, !app_assoc'.
Qed.

Lemma test_spec (r : regex) (s : string) :
  test r s = true ↔ ∃ w, w ∈ literals r ∧ substring w s.
Proof.
  induction r as [l|r1 IH1 r2 IH2]; simpl.
  - rewrite includes_spec. split.
    + intros H. exists l. split; [apply list_elem_of_singleton|]; done.
    + intros (w & ->%list_elem_of_singleton & H). done.
  - rewrite orb_true_iff, IH1, IH2. split.
    + intros [(w & Hw & H) | (w & Hw & H)]; exists w; (split; [|done]);
        apply elem_of_app; auto.
    + intros (w & [Hw|Hw]%elem_of_app & H); [left | right]; by exists w.
Qed.

Lemma arrayIncludes_spec (x : string) (l : list string) :
  arrayIncludes x l = true ↔ x ∈ l.
Proof.
  unfold arrayIncludes. rewrite existsb_exists. split.
  - intros (y & Hy & ->%String.eqb_eq). by apply list_elem_of_In.
  - intros H. exists x. split; [by apply list_elem_of_In | apply String.eqb_refl].
Qed.

Lemma arrayIncludes_false (x : string) (l : list string) :
  arrayIncludes x l = false ↔ x ∉ l.
Proof.
  rewrite <- arrayIncludes_spec. destruct (arrayIncludes x l); split; congruence.
Qed.

(** ** The ASCII host

    [inferSeverity] and [filtered] are [inferSeverityH] and [filteredH] at
    the ASCII [toLowerCase] and [trim]. *)
Lemma inferSeverity_ascii_host (tags : list string) :
  inferSeverity tags = inferSeverityH toLowerCase tags.
Proof. reflexivity. Qed.

Lemma filtered_ascii_host
    (insights : list insight) (from to competitor query : string) :
  filtered insights from to competitor query
  = filteredH toLowerCase trim insights from to competitor query.
Proof. reflexivity. Qed.

(** ** The severity classifier *)

(** C2.  [inferSeverity] lower-cases the space-joined tags with the host's
    [toLowerCase] and applies the rules in order, the first match deciding:
    [critical] when the blob contains one of pricing, price, bundle (whatever
    else it matches); otherwise [watch] when it contains one of ai,
    e-bidding, integration; otherwise [info].  A tag that contains "pricing"
    in any letter case, at any position of the list, gives [critical]; for
    this the host's function has to lower-case the joined tags tag by tag
    and leave the word "pricing" as it is. *)
Theorem inferSeverity_ordered_rules (lower : string → string) (tags : list string) :
  let blob := lower (join " " tags) in
  let rule1 := ∃ w, w ∈ ["pricing"; "price"; "bundle"] ∧ substring w blob in
  let rule2 := ∃ w, w ∈ ["ai"; "e-bidding"; "integration"] ∧ substring w blob in
  (rule1 → inferSeverityH lower tags = critical)
  ∧ (¬ rule1 → rule2 → inferSeverityH lower tags = watch)
  ∧ (¬ rule1 → ¬ rule2 → inferSeverityH lower tags = info)
  ∧ (lower (join " " tags) = join " " (map lower tags) →
     lower "pricing" = "pricing" →
     ∀ t, t ∈ tags → ciSubstringH lower "pricing" t →
          inferSeverityH lower tags = critical).
Proof.
  clear parseDate toLocaleString. intros blob rule1 rule2.
  assert (H1 : test criticalRe blob = true ↔ rule1) by apply test_spec.
  assert (H2 : test watchRe blob = true ↔ rule2).
  { rewrite test_spec. unfold rule2. simpl.
    split; intros (w & Hw & H); exists w; (split; [|done]);
      revert Hw; rewrite !elem_of_cons, !elem_of_nil; tauto. }
  assert (Hc : rule1 → inferSeverityH lower tags = critical).
  { intros Hr. apply H1 in Hr. unfold inferSeverityH. fold blob. by rewrite Hr. }
  split; [done|]. split; [|split].
  - intros Hn Hr. unfold inferSeverityH. fold blob.
    destruct (test criticalRe blob) eqn:E; [by destruct Hn; apply H1|].
    apply H2 in Hr. by rewrite Hr.
  - intros Hn1 Hn2. unfold inferSeverityH. fold blob.
    destruct (test criticalRe blob) eqn:E1; [by destruct Hn1; apply H1|].
    destruct (test watchRe blob) eqn:E2; [by destruct Hn2; apply H2|]. done.
  - intros Hj Hp t Ht Hs. apply Hc. exists "pricing". split; [by constructor|].
    unfold blob. rewrite Hj. unfold ciSubstringH in Hs. rewrite Hp in Hs.
    eapply substring_trans; [exact Hs|].
    apply substring_join, list_elem_of_In, in_map, list_elem_of_In, Ht.
Qed.

(** ** The battle-card generator, on values *)



Lemma toBattleCard_is_Some (i : insight) :
  is_Some (toBattleCard i) ↔ is_Some (Insight.tags i).
Proof.
  unfold toBattleCard. destruct (Insight.tags i) as [tags|]; simpl.
  - split; eauto.
  - split; intros [? ?]; discriminate.
Qed.

(** ** The filter *)

Lemma filter_idem {A} (p : A → bool) (l : list A) :
  List.filter p (List.filter p l) = List.filter p l.
Proof.
  induction l as [|x l IH]; simpl; [done|].
  destruct (p x) eqn:E; simpl; [rewrite E; by f_equal | done].
Qed.

Lemma filter_none {A} (p : A → bool) (l : list A) :
  (∀ x, p x = false) → List.filter p l = [].
Proof. intros H. induction l as [|x l IH]; simpl; [done | by rewrite H]. Qed.

Lemma filter_sublist {A} (p : A → bool) (l : list A) : sublist (List.filter p l) l.
Proof.
  induction l as [|x l IH]; simpl; [constructor|].
  destruct (p x); by constructor.
Qed.

Lemma truthy_true (s : string) : truthy s = true ↔ s ≠ "".
Proof. destruct s; simpl; split; congruence. Qed.

Lemma toLowerCase_empty (s : string) : toLowerCase s = "" ↔ s = "".
Proof. destruct s; simpl; split; congruence. Qed.

Lemma getTime_malformed (s : string) : malformed s → getTime s = NaN.
Proof. intros [_ H]. unfold getTime. by rewrite H. Qed.

Lemma filtered_malformed_none
    (insights : list insight) (from to competitor query : string) :
  malformed from ∨ malformed to →
  filtered insights from to competitor query = [].
Proof.
  intros H. unfold filtered. apply filter_none. intros i. unfold keep.
  destruct H as [H|H]; pose proof (getTime_malformed _ H) as E;
    destruct H as [Hne%truthy_true _]; rewrite Hne, E.
  - unfold ge. simpl. done.
  - replace (le (getTime (Insight.date i)) NaN) with false
      by (by destruct (getTime (Insight.date i))).
    by rewrite andb_false_r.
Qed.

Lemma filter_weaker_sublist {A} (p p' : A → bool) (l : list A) :
  (∀ x, p' x = true → p x = true) → sublist (List.filter p' l) (List.filter p l).
Proof.
  intros H. induction l as [|x l IH]; simpl; [constructor|].
  destruct (p' x) eqn:E'.
  - rewrite (H x E'). by constructor.
  - destruct (p x); [by constructor | done].
Qed.

Lemma ge_unbounded (t start : number) : ge t start = true → ge t NegInfinity = true.
Proof. by destruct t, start. Qed.

Lemma le_unbounded (t end_ : number) : le t end_ = true → le t Infinity = true.
Proof. by destruct t, end_. Qed.


(** C6.  Filtering the result of the filter again, with the same parameters,
    changes nothing. *)
Theorem filtered_idempotent
    (insights : list insight) (from to competitor query : string) :
  filtered (filtered insights from to competitor query) from to competitor query
  = filtered insights from to competitor query.
Proof. unfold filtered. apply filter_idem. Qed.

Lemma inRange_spec (from to : string) (fromDate toDate : option Z) (i : insight) :
  boundOf from fromDate → boundOf to toDate →
  ge (getTime (Insight.date i)) (if truthy from then getTime from else NegInfinity)
  && le (getTime (Insight.date i)) (if truthy to then getTime to else Infinity) = true
  ↔ specInRange fromDate toDate i.
Proof.
  intros Hf Ht. unfold specInRange, getTime.
  assert (Es : (if truthy from then match parseDate from with Some z => Num z | None => NaN end
                else NegInfinity)
               = match fromDate with Some f => Num f | None => NegInfinity end).
  { destruct fromDate as [f|]; simpl in Hf.
    - destruct Hf as [Hne%truthy_true Hp]. by rewrite Hne, Hp.
    - by rewrite Hf. }
  assert (Ee : (if truthy to then match parseDate to with Some z => Num z | None => NaN end
                else Infinity)
               = match toDate with Some e => Num e | None => Infinity end).
  { destruct toDate as [e|]; simpl in Ht.
    - destruct Ht as [Hne%truthy_true Hp]. by rewrite Hne, Hp.
    - by rewrite Ht. }
  rewrite Es, Ee. clear Es Ee Hf Ht.
  destruct (parseDate (Insight.date i)) as [t|].
  - rewrite andb_true_iff. split.
    + intros [H1 H2]. exists t. split; [done|]. split.
      * intros f ->. unfold ge in H1. simpl in H1. lia.
      * intros e ->. simpl in H2. lia.
    + intros (t' & [= <-] & H1 & H2). split.
      * destruct fromDate as [f|]; unfold ge; simpl; [|done].
        specialize (H1 f eq_refl). lia.
      * destruct toDate as [e|]; simpl; [|done].
        specialize (H2 e eq_refl). lia.
  - split; [by destruct fromDate | intros (t & ? & _); discriminate].
Qed.

Lemma byComp_spec (competitor : string) (i : insight) :
  String.eqb competitor "All" || String.eqb (Insight.competitor i) competitor = true
  ↔ specByCompetitor competitor i.
Proof.
  clear parseDate toLocaleString.
  unfold specByCompetitor. rewrite orb_true_iff, !String.eqb_eq. intuition congruence.
Qed.

Lemma optIncludes_spec (query : string) (field : option string) :
  optIncludes (toLowerCase query) field = true
  ↔ ∃ s, field = Some s ∧ ciSubstring query s.
Proof.
  unfold optIncludes, ciSubstring. destruct field as [s|].
  - rewrite includes_spec. split; [by exists s | by intros (s' & [= <-] & H)].
  - split; [done | by intros (s & ? & _)].
Qed.

Lemma byQuery_spec (query : string) (i : insight) :
  negb (truthy (toLowerCase query))
  || optIncludes (toLowerCase query) (Insight.title i)
  || optIncludes (toLowerCase query) (Insight.summary i)
  || includes (toLowerCase query) (toLowerCase (join " " (default [] (Insight.tags i))))
  = true
  ↔ specByQuery query i.
Proof.
  clear parseDate toLocaleString.
  unfold specByQuery.
  rewrite !orb_true_iff, !optIncludes_spec, includes_spec, negb_true_iff.
  assert (E : truthy (toLowerCase query) = false ↔ query = "").
  { rewrite <- not_true_iff_false, truthy_true, toLowerCase_empty.
    destruct query; split; try congruence. intros H. by destruct H. }
  rewrite E. unfold ciSubstring. tauto.
Qed.

Lemma keep_spec (from to competitor query : string) (fromDate toDate : option Z)
    (i : insight) :
  boundOf from fromDate → boundOf to toDate →
  keep (if truthy from then getTime from else NegInfinity)
       (if truthy to then getTime to else Infinity)
       competitor (toLowerCase query) i = true
  ↔ specKeep fromDate toDate competitor query i.
Proof.
  clear toLocaleString.
  intros Hf Ht. unfold keep, specKeep. cbv zeta.
  rewrite <- (inRange_spec _ _ _ _ _ Hf Ht), <- byComp_spec, <- byQuery_spec.
  rewrite !andb_true_iff. tauto.
Qed.

Lemma optIncludesH_spec (lower : string → string) (query : string)
    (field : option string) :
  optIncludesH lower (lower query) field = true
  ↔ ∃ s, field = Some s ∧ ciSubstringH lower query s.
Proof.
  unfold optIncludesH, ciSubstringH. destruct field as [s|].
  - rewrite includes_spec. split; [by exists s | by intros (s' & [= <-] & H)].
  - split; [done | by intros (s & ? & _)].
Qed.

Lemma byQueryH_spec (lower : string → string) (query : string) (i : insight) :
  (∀ s, lower s = "" ↔ s = "") →
  negb (truthy (lower query))
  || optIncludesH lower (lower query) (Insight.title i)
  || optIncludesH lower (lower query) (Insight.summary i)
  || includes (lower query) (lower (join " " (default [] (Insight.tags i))))
  = true
  ↔ specByQueryH lower query i.
Proof.
  clear parseDate toLocaleString.
  intros Hl. unfold specByQueryH.
  rewrite !orb_true_iff, !optIncludesH_spec, includes_spec, negb_true_iff.
  assert (E : truthy (lower query) = false ↔ query = "").
  { rewrite <- Hl. by destruct (lower query). }
  rewrite E. unfold ciSubstringH. tauto.
Qed.

Lemma keepH_spec (lower : string → string) (from to competitor query : string)
    (fromDate toDate : option Z) (i : insight) :
  (∀ s, lower s = "" ↔ s = "") →
  boundOf from fromDate → boundOf to toDate →
  keepH lower (if truthy from then getTime from else NegInfinity)
        (if truthy to then getTime to else Infinity)
        competitor (lower query) i = true
  ↔ specKeepH lower fromDate toDate competitor query i.
Proof.
  clear toLocaleString.
  intros Hl Hf Ht. unfold keepH, specKeepH. cbv zeta.
  rewrite <- (inRange_spec _ _ _ _ _ Hf Ht), <- byComp_spec, <- (byQueryH_spec _ _ _ Hl).
  rewrite !andb_true_iff. tauto.
Qed.

(** C3, as the code has it.  The filter returns, in the order of the input,
    exactly the records that satisfy the three predicates of the contract,
    with two differences: the record's date has to be one that [Date.parse]
    reads (a record without a readable date is dropped even when no bound is
    set), and the query is taken after its surrounding white space is
    trimmed.  So: date readable and within the inclusive range (unbounded
    where a bound is absent), competitor "All" or equal to the record's, and
    trimmed query empty or a case-insensitive substring of the title, the
    summary or the space-joined tags.  Lower-casing and trimming are the
    host's; of the former only that it maps no other string to the empty
    one is used. *)
Theorem filtered_contract
    (lower strip : string → string)
    (insights : list insight) (from to competitor query : string)
    (fromDate toDate : option Z) :
  (∀ s, lower s = "" ↔ s = "") →
  boundOf from fromDate → boundOf to toDate →
  ∃ p : insight → bool,
    (∀ i, p i = true ↔ specKeepH lower fromDate toDate competitor (strip query) i)
    ∧ filteredH lower strip insights from to competitor query = List.filter p insights
    ∧ sublist (filteredH lower strip insights from to competitor query) insights.
Proof.
  clear toLocaleString.
  intros Hl Hf Ht. eexists. split; [|split].
  - intros i. apply (keepH_spec _ _ _ _ _ _ _ _ Hl Hf Ht).
  - done.
  - apply filter_sublist.
Qed.

(** ** Curation *)

Lemma curated_ids_filter (p : Curated.t → bool) (prev : list Curated.t) :
  NoDup (Curated.id <$> prev) → NoDup (Curated.id <$> List.filter p prev).
Proof.
  clear parseDate toLocaleString.
  induction prev as [|c prev IH]; simpl; [done|].
  rewrite ?fmap_cons. intros [Hc Hn]%NoDup_cons.
  destruct (p c); [|by apply IH].
  rewrite ?fmap_cons. apply NoDup_cons. split; [|by apply IH].
  intros (x & Hx & Hin)%list_elem_of_fmap.
  apply Hc, list_elem_of_fmap. exists x. split; [done|].
  apply list_elem_of_In. apply list_elem_of_In, filter_In in Hin. tauto.
Qed.

Lemma curated_id_removed (k : string) (prev : list Curated.t) :
  k ∉ Curated.id <$> List.filter (fun x => negb (String.eqb (Curated.id x) k)) prev.
Proof.
  intros (x & -> & Hin)%list_elem_of_fmap.
  apply list_elem_of_In, filter_In in Hin as [_ Hx].
  by rewrite String.eqb_refl in Hx.
Qed.

Lemma cardsOf_removed (k : string) (prev : list Curated.t) :
  cardsOf k (List.filter (fun x => negb (String.eqb (Curated.id x) k)) prev) = [].
Proof.
  unfold cardsOf. induction prev as [|c prev IH]; simpl; [done|].
  destruct (String.eqb (Curated.id c) k) eqn:E; simpl; [done|]. by rewrite E.
Qed.

Lemma curate_NoDup (i : insight) (prev : list Curated.t) :
  NoDup (Curated.id <$> prev) → NoDup (Curated.id <$> curate i prev).
Proof.
  intros Hn. unfold curate. destruct (toBattleCard i) as [b|]; [|done].
  cbv zeta. rewrite fmap_cons. apply NoDup_cons. split.
  - apply curated_id_removed.
  - by apply curated_ids_filter.
Qed.

Lemma curate_history_NoDup (history : list insight) :
  NoDup (Curated.id <$> foldl (fun prev i => curate i prev) [] history).
Proof.
  assert (H : ∀ prev, NoDup (Curated.id <$> prev) →
              NoDup (Curated.id <$> foldl (fun prev i => curate i prev) prev history)).
  { induction history as [|i history IH]; intros prev Hn; simpl; [done|].
    by apply IH, curate_NoDup. }
  apply H. constructor.
Qed.

(** C5.  [curate] keeps the curated list free of repeated ids, and after the
    same id is curated twice the list holds exactly one card for it: the one
    made by the second curation. *)
Theorem curate_one_card_per_id
    (i1 i2 : insight) (prev : list Curated.t) (b2 : battleCard) :
  (NoDup (Curated.id <$> prev) → NoDup (Curated.id <$> curate i1 prev))
  ∧ (Insight.id i1 = Insight.id i2 → toBattleCard i2 = Some b2 →
     cardsOf (Insight.id i2) (curate i2 (curate i1 prev))
     = [Curated.mk (Insight.id i2) (Insight.competitor i2) b2]).
Proof.
  split; [apply curate_NoDup|].
  intros _ Hb. unfold curate at 1. rewrite Hb. cbv zeta.
  unfold cardsOf at 1. simpl. rewrite String.eqb_refl. f_equal.
  apply cardsOf_removed.
Qed.

(** ** The team update *)

Lemma substring_here (q r : string) : substring q (q +:+ r).
Proof. by exists "", r. Qed.

Lemma substring_app_r (q a s : string) : substring q s → substring q (a +:+ s).
Proof. intros (x & y & ->). exists (a +:+ x), y. by rewrite app_assoc'. Qed.

Lemma item_mentions (i : insight) :
  substring (Insight.competitor i) (item i)
  ∧ substring (render (Insight.title i)) (item i)
  ∧ substring (render (Insight.summary i)) (item i)
  ∧ substring (Insight.sourceName i) (item i)
  ∧ substring (Insight.sourceUrl i) (item i)
  ∧ substring (localeOf (Insight.date i)) (item i).
Proof.
  unfold item.
  repeat split;
    repeat first [ apply substring_here | apply substring_refl | apply substring_app_r ].
Qed.

Lemma lookup_map {A B} (f : A → B) (l : list A) (k : nat) :
  map f l !! k = f <$> (l !! k).
Proof.
  revert k. induction l as [|x l IH]; intros [|k]; simpl; by try apply IH.
Qed.

(** C8.  The team update is the heading (the title line, a blank line, the
    time of composition, a blank line) followed by one block for each of the
    first eight insights, in the order given, the blocks joined by a blank
    line, and a final line end.  A block is the three lines of the template:
    competitor and title, summary, source link and formatted date.  With no
    insight the text is the heading and the final line end. *)
Theorem markdown_first_eight_in_order (l : list insight) (now : Z) :
  let n := String "010"%char EmptyString in
  let head :=
    "# Competitor & Market Update" +:+ n +:+ n +:+ toLocaleString (Some now) +:+ n +:+ n in
  ∃ blocks : list string,
    markdown l now = head +:+ join (n +:+ n) blocks +:+ n
    ∧ length blocks = Nat.min 8 (length l)
    ∧ (∀ (k : nat) (b : string), blocks !! k = Some b →
         ∃ i, l !! k = Some i
              ∧ b = "- **" +:+ Insight.competitor i +:+ "** — "
                    +:+ default "undefined" (Insight.title i) +:+ "  " +:+ n
                    +:+ "  " +:+ default "undefined" (Insight.summary i) +:+ "  " +:+ n
                    +:+ "  Source: [" +:+ Insight.sourceName i
                    +:+ "](" +:+ Insight.sourceUrl i +:+ ") • "
                    +:+ toLocaleString (parseDate (Insight.date i)))
    ∧ (l = [] → markdown l now = head +:+ n).
Proof.
  intros n head. exists (map item (firstn 8 l)). split; [|split; [|split]].
  - unfold markdown, heading, head, n, nl. by rewrite !app_assoc'.
  - by rewrite length_map, length_firstn.
  - intros k b Hb. rewrite lookup_map in Hb.
    destruct (take 8 l !! k) as [i|] eqn:Hi; [|done].
    injection Hb as <-. exists i. split.
    + apply lookup_take_Some in Hi. tauto.
    + unfold item, render, localeOf, n, nl.
      by destruct (Insight.title i), (Insight.summary i).
  - intros ->. unfold markdown, heading, head, n, nl. simpl. by rewrite !app_assoc'.
Qed.

(** ** The store-level model *)

Lemma bind_ok {A B} (m : M A) (k : A → M B) (σ σ' : store) (a : A) :
  m σ = (Some a, σ') → (m ≫= k) σ = k a σ'.
Proof. intros H. unfold mbind, M_bind, bind. by rewrite H. Qed.

Lemma bind_throw {A B} (m : M A) (k : A → M B) (σ σ' : store) :
  m σ = (None, σ') → (m ≫= k) σ = (None, σ').
Proof. intros H. unfold mbind, M_bind, bind. by rewrite H. Qed.

Lemma extends_refl (σ : store) : extends σ σ.
Proof. by intros k o. Qed.

Lemma extends_trans (σ1 σ2 σ3 : store) :
  extends σ1 σ2 → extends σ2 σ3 → extends σ1 σ3.
Proof. intros H12 H23 k o H. by apply H23, H12. Qed.

Lemma extends_readArr (σ σ' : store) (a : loc) (xs : list string) :
  extends σ σ' → readArr σ a = Some xs → readArr σ' a = Some xs.
Proof.
  intros He. unfold readArr. destruct (σ !! a) as [[]|] eqn:E; try done.
  by rewrite (He _ _ E).
Qed.

Lemma extends_readTags (σ σ' : store) (tg : option loc) r :
  extends σ σ' → readTags σ tg = Some r → readTags σ' tg = Some r.
Proof.
  intros He. destruct tg as [a|]; simpl; [|done].
  destruct (readArr σ a) as [xs|] eqn:E; [|done].
  by rewrite (extends_readArr _ _ _ _ He E).
Qed.

Lemma extends_readInsight (σ σ' : store) (l : loc) (i : insight) :
  extends σ σ' → readInsight σ l = Some i → readInsight σ' l = Some i.
Proof.
  intros He. unfold readInsight. destruct (σ !! l) as [[]|] eqn:E; try done.
  rewrite (He _ _ E).
  destruct (readTags σ _) as [tg|] eqn:Et; [|done].
  by rewrite (extends_readTags _ _ _ _ He Et).
Qed.

Lemma extends_readCard (σ σ' : store) (l : loc) (b : battleCard) :
  extends σ σ' → readCard σ l = Some b → readCard σ' l = Some b.
Proof.
  intros He. unfold readCard. destruct (σ !! l) as [[]|] eqn:E; try done.
  rewrite (He _ _ E).
  destruct (readArr σ _) as [cs|] eqn:Ec; [|done].
  rewrite (extends_readArr _ _ _ _ He Ec).
  destruct (readTags σ _) as [tg|] eqn:Et; [|done].
  by rewrite (extends_readTags _ _ _ _ He Et).
Qed.

Lemma getInsightValue_read (l : loc) (σ : store) :
  getInsightValue l σ = (readInsight σ l, σ).
Proof.
  unfold getInsightValue, readInsight, readTags, readArr, getInsight, getArr,
    mbind, M_bind, bind, mret, M_ret, ret.
  destruct (σ !! l) as [[? | io | ?]|]; try done.
  destruct (Insight.tags io) as [a|]; [|done].
  by destruct (σ !! a) as [[]|].
Qed.

Lemma filterS_read (p : insight → bool) (ls : list loc) (σ : store) :
  (filterS p ls σ).2 = σ.
Proof.
  induction ls as [|l ls IH]; [done|].
  cbn [filterS]. unfold mbind, M_bind, bind.
  rewrite getInsightValue_read. destruct (readInsight σ l) as [i|]; [|done].
  destruct (filterS p ls σ) as [[rest|] σ'] eqn:E; simpl in *; by subst.
Qed.

(** On a store whose references read back as the insights [vs], the
    store-level filter returns the references of the value-level result. *)
Lemma filterS_refines (p : insight → bool) (ls : list loc) (vs : list insight)
    (σ : store) :
  Forall2 (fun l i => readInsight σ l = Some i) ls vs →
  ∃ ls', (filterS p ls σ).1 = Some ls'
         ∧ sublist ls' ls
         ∧ Forall2 (fun l i => readInsight σ l = Some i) ls' (List.filter p vs).
Proof.
  induction 1 as [|l i ls vs Hl _ IH].
  - exists []. by repeat split; constructor.
  - destruct IH as (ls' & E & Hs & Hf).
    cbn [filterS]. unfold mbind, M_bind, bind.
    rewrite getInsightValue_read, Hl.
    pose proof (filterS_read p ls σ) as Hσ.
    destruct (filterS p ls σ) as [r σ']. simpl in E, Hσ. subst r σ'.
    simpl. destruct (p i).
    + exists (l :: ls'). repeat split; by constructor.
    + exists ls'. repeat split; [by constructor | done].
Qed.

Lemma tagsInclude_store (l : loc) (x : string) (σ : store) :
  (tagsInclude l x σ).2 = σ.
Proof.
  unfold tagsInclude, getInsight, getArr, required, mbind, M_bind, bind,
    mret, M_ret, ret, throw.
  destruct (σ !! l) as [[| io |]|]; try done.
  destruct (Insight.tags io) as [a|]; [|done].
  by destruct (σ !! a) as [[]|].
Qed.

Section Run.

Context (σ0 : store) (l : loc) (io : Insight.t loc) (a : loc) (ts : list string).
Context (lc lb : loc).
Hypothesis Hl : σ0 !! l = Some (InsightObj io).
Hypothesis Ha : Insight.tags io = Some a.
Hypothesis Hts : σ0 !! a = Some (Arr ts).
Hypothesis Hlc : σ0 !! lc = None.
Hypothesis Hlb : σ0 !! lb = None.
Hypothesis Hne : lc ≠ lb.

Lemma building_old cs imp σ k o :
  building σ0 io lc lb cs imp σ → σ0 !! k = Some o → σ !! k = Some o.
Proof using Hlc Hlb.
  intros (_ & _ & Hk) Ho. rewrite Hk; [done | |]; intros ->; congruence.
Qed.

Lemma building_tagsInclude cs imp σ x :
  building σ0 io lc lb cs imp σ →
  tagsInclude l x σ = (Some (arrayIncludes x ts), σ).
Proof using Hl Ha Hts Hlc Hlb.
  intros Hb. unfold tagsInclude, getInsight, getArr, required,
    mbind, M_bind, bind, mret, M_ret, ret.
  rewrite (building_old _ _ _ _ _ Hb Hl), Ha.
  by rewrite (building_old _ _ _ _ _ Hb Hts).
Qed.

Lemma building_setImpact cs imp σ v :
  building σ0 io lc lb cs imp σ →
  ∃ σ', setImpact lb v σ = (Some tt, σ') ∧ building σ0 io lc lb cs v σ'.
Proof using Hne.
  intros (Hc & Hb & Hk). unfold setImpact. rewrite Hb. eexists. split; [done|].
  split; [|split].
  - by rewrite lookup_insert_ne.
  - by rewrite lookup_insert_eq.
  - intros k ? ?. rewrite lookup_insert_ne by done. by apply Hk.
Qed.

Lemma building_unshift cs imp σ x :
  building σ0 io lc lb cs imp σ →
  ∃ σ', unshiftCounters lb x σ = (Some tt, σ')
        ∧ building σ0 io lc lb (x :: cs) imp σ'.
Proof using Hne.
  intros (Hc & Hb & Hk).
  unfold unshiftCounters, getCard, unshiftArr, mbind, M_bind, bind.
  rewrite Hb. simpl. rewrite Hc. eexists. split; [done|].
  split; [|split].
  - by rewrite lookup_insert_eq.
  - by rewrite lookup_insert_ne.
  - intros k ? ?. rewrite lookup_insert_ne by done. by apply Hk.
Qed.

Lemma building_readCard cs imp σ :
  building σ0 io lc lb cs imp σ →
  readCard σ lb
  = Some (BattleCard.set_counters cs
            (BattleCard.set_impact imp (baseCard baseCounters (withTags io (Some ts))))).
Proof using Ha Hts Hlc Hlb.
  intros Hb. pose proof Hb as (Hc & Hcard & _).
  unfold readCard, readArr, readTags. rewrite Hcard. simpl. rewrite Hc. simpl.
  rewrite Ha. unfold readArr. simpl.
  by rewrite (building_old _ _ _ _ _ Hb Hts).
Qed.

Lemma building_extends cs imp σ : building σ0 io lc lb cs imp σ → extends σ0 σ.
Proof using Hlc Hlb. intros Hb k o. by apply building_old with cs imp. Qed.

Lemma building_when_ai (c : bool) cs imp σ :
  building σ0 io lc lb cs imp σ →
  ∃ σ', when c (setImpact lb aiImpact;; unshiftCounters lb aiCounter) σ = (Some tt, σ')
        ∧ building σ0 io lc lb (if c then aiCounter :: cs else cs)
                   (if c then aiImpact else imp) σ'.
Proof using Hne.
  intros Hb. destruct c; simpl; [|by exists σ].
  destruct (building_setImpact _ _ _ aiImpact Hb) as (σ1 & E1 & B1).
  destruct (building_unshift _ _ _ aiCounter B1) as (σ2 & E2 & B2).
  exists σ2. split; [|done]. by rewrite (bind_ok _ _ _ _ _ E1).
Qed.

Lemma building_when_unshift (c : bool) (x : string) cs imp σ :
  building σ0 io lc lb cs imp σ →
  ∃ σ', when c (unshiftCounters lb x) σ = (Some tt, σ')
        ∧ building σ0 io lc lb (if c then x :: cs else cs) imp σ'.
Proof using Hne.
  intros Hb. destruct c; simpl; [|by exists σ].
  apply building_unshift, Hb.
Qed.

(** Whatever the rules do, and whether or not they throw, they touch only
    the two objects made by this call. *)
Lemma augment_building cs imp σ :
  building σ0 io lc lb cs imp σ →
  ∃ cs' imp', building σ0 io lc lb cs' imp' (augment l lb σ).2.
Proof using Hne.
  intros B0. unfold augment.
  destruct (tagsInclude l "AI" σ) as [[ai|] σa] eqn:Ea;
    pose proof (tagsInclude_store l "AI" σ) as Sa; rewrite Ea in Sa;
    simpl in Sa; subst σa;
    [rewrite (bind_ok _ _ _ _ _ Ea) | rewrite (bind_throw _ _ _ _ Ea); eauto].
  destruct (building_when_ai ai _ _ _ B0) as (σ1 & E1 & B1).
  rewrite (bind_ok _ _ _ _ _ E1).
  destruct (tagsInclude l "Pricing" σ1) as [[pr|] σp] eqn:Ep;
    pose proof (tagsInclude_store l "Pricing" σ1) as Sp; rewrite Ep in Sp;
    simpl in Sp; subst σp;
    [rewrite (bind_ok _ _ _ _ _ Ep) | rewrite (bind_throw _ _ _ _ Ep); eauto].
  destruct (building_when_unshift pr pricingCounter _ _ _ B1) as (σ2 & E2 & B2).
  rewrite (bind_ok _ _ _ _ _ E2).
  destruct (tagsInclude l "E-bidding" σ2) as [[eb|] σe] eqn:Ee;
    pose proof (tagsInclude_store l "E-bidding" σ2) as Se; rewrite Ee in Se;
    simpl in Se; subst σe;
    [rewrite (bind_ok _ _ _ _ _ Ee) | rewrite (bind_throw _ _ _ _ Ee); eauto].
  destruct (building_when_unshift eb ebiddingCounter _ _ _ B2) as (σ3 & E3 & B3).
  rewrite (bind_ok _ _ _ _ _ E3). simpl. eauto.
Qed.

(** On a well-formed insight the rules all run, and leave behind [lb] the
    card that the value-level [toBattleCard] computes. *)
Lemma augment_run σ :
  building σ0 io lc lb baseCounters baseImpact σ →
  ∃ σ' b, augment l lb σ = (Some lb, σ')
          ∧ toBattleCard (withTags io (Some ts)) = Some b
          ∧ readCard σ' lb = Some b
          ∧ extends σ0 σ'.
Proof using Hl Ha Hts Hlc Hlb Hne.
  intros B0. unfold augment.
  rewrite (bind_ok _ _ _ _ _ (building_tagsInclude _ _ _ "AI" B0)).
  destruct (building_when_ai (arrayIncludes "AI" ts) _ _ _ B0) as (σ1 & E1 & B1).
  rewrite (bind_ok _ _ _ _ _ E1).
  rewrite (bind_ok _ _ _ _ _ (building_tagsInclude _ _ _ "Pricing" B1)).
  destruct (building_when_unshift (arrayIncludes "Pricing" ts) pricingCounter _ _ _ B1)
    as (σ2 & E2 & B2).
  rewrite (bind_ok _ _ _ _ _ E2).
  rewrite (bind_ok _ _ _ _ _ (building_tagsInclude _ _ _ "E-bidding" B2)).
  destruct (building_when_unshift (arrayIncludes "E-bidding" ts) ebiddingCounter _ _ _ B2)
    as (σ3 & E3 & B3).
  rewrite (bind_ok _ _ _ _ _ E3).
  exists σ3. eexists. split; [done|]. split; [done|]. split.
  - rewrite (building_readCard _ _ _ B3). unfold toBattleCard. simpl.
    by destruct (arrayIncludes "AI" ts), (arrayIncludes "Pricing" ts),
      (arrayIncludes "E-bidding" ts).
  - apply (building_extends _ _ _ B3).
Qed.

End Run.

(** The two allocations that open [toBattleCard]. *)
Lemma toBattleCardS_alloc (σ : store) (l : loc) (io : Insight.t loc) :
  σ !! l = Some (InsightObj io) →
  ∃ lc lb σ2,
    toBattleCardS l σ = augment l lb σ2
    ∧ σ !! lc = None ∧ σ !! lb = None ∧ lc ≠ lb
    ∧ building σ io lc lb baseCounters baseImpact σ2.
Proof.
  intros Hl.
  set (lc := fresh (dom σ)). set (σ1 := <[lc:=Arr baseCounters]> σ).
  set (lb := fresh (dom σ1)). set (σ2 := <[lb:=CardObj (baseCard lc io)]> σ1).
  assert (Hlc : σ !! lc = None) by apply not_elem_of_dom, is_fresh.
  assert (Hlb1 : σ1 !! lb = None) by apply not_elem_of_dom, is_fresh.
  assert (Hne : lc ≠ lb).
  { intros E. rewrite <- E in Hlb1. unfold σ1 in Hlb1.
    by rewrite lookup_insert_eq in Hlb1. }
  assert (Hlb : σ !! lb = None).
  { unfold σ1 in Hlb1. by rewrite lookup_insert_ne in Hlb1. }
  exists lc, lb, σ2. repeat split; try done.
  - unfold toBattleCardS.
    rewrite (bind_ok _ _ σ σ io) by (unfold getInsight; by rewrite Hl).
    rewrite (bind_ok _ _ σ σ1 lc) by done.
    by rewrite (bind_ok _ _ σ1 σ2 lb).
  - unfold σ2, σ1. by rewrite lookup_insert_ne, lookup_insert_eq.
  - unfold σ2. by rewrite lookup_insert_eq.
  - intros k ? ?. unfold σ2, σ1. by rewrite !lookup_insert_ne.
Qed.

Lemma toBattleCardS_run (σ : store) (l : loc) (i : insight) :
  readInsight σ l = Some i → is_Some (Insight.tags i) →
  ∃ c σ' b,
    toBattleCardS l σ = (Some c, σ')
    ∧ toBattleCard i = Some b
    ∧ readCard σ' c = Some b
    ∧ extends σ σ'.
Proof.
  unfold readInsight. destruct (σ !! l) as [[| io |]|] eqn:Hl; try done.
  destruct (Insight.tags io) as [a|] eqn:Ha; simpl.
  - unfold readArr. destruct (σ !! a) as [[ts| |]|] eqn:Hts; try done.
    simpl. intros [= <-] _.
    destruct (toBattleCardS_alloc σ l io Hl) as (lc & lb & σ2 & E & Hlc & Hlb & Hne & B0).
    destruct (augment_run σ l io a ts lc lb Hl Ha Hts Hlc Hlb Hne σ2 B0)
      as (σ' & b & Er & Hb & Hc & He).
    exists lb, σ', b. by rewrite E.
  - intros [= <-] [? ?]. discriminate.
Qed.

Lemma toBattleCardS_extends (σ : store) (l : loc) : extends σ (toBattleCardS l σ).2.
Proof.
  destruct (σ !! l) as [[| io |]|] eqn:Hl.
  2: { destruct (toBattleCardS_alloc σ l io Hl) as (lc & lb & σ2 & E & Hlc & Hlb & Hne & B0).
       rewrite E.
       destruct (augment_building σ l io lc lb Hne _ _ _ B0) as (cs & imp & B).
       by apply (building_extends σ io lc lb Hlc Hlb) with cs imp. }
  all: unfold toBattleCardS; rewrite (bind_throw _ _ σ σ)
         by (unfold getInsight; by rewrite Hl); apply extends_refl.
Qed.

(** ** The battle-card generator, on the store *)

(** C7.  On an insight that has its tags, [toBattleCard] returns a card,
    and two calls on insights that read the same (at one reference or two)
    return cards that read the same, field by field and counter by counter:
    the card of the value-level function.  The second call leaves the first
    card as it was. *)
Theorem toBattleCard_total_deterministic
    (σ : store) (l1 l2 : loc) (i : insight) :
  readInsight σ l1 = Some i → readInsight σ l2 = Some i →
  is_Some (Insight.tags i) →
  ∃ c1 σ1 c2 σ2 b,
    toBattleCard i = Some b
    ∧ toBattleCardS l1 σ = (Some c1, σ1) ∧ readCard σ1 c1 = Some b
    ∧ toBattleCardS l2 σ1 = (Some c2, σ2) ∧ readCard σ2 c2 = Some b
    ∧ readCard σ2 c1 = Some b.
Proof.
  intros H1 H2 Ht.
  destruct (toBattleCardS_run σ l1 i H1 Ht) as (c1 & σ1 & b & E1 & Hb & R1 & X1).
  pose proof (extends_readInsight _ _ _ _ X1 H2) as H2'.
  destruct (toBattleCardS_run σ1 l2 i H2' Ht) as (c2 & σ2 & b' & E2 & Hb' & R2 & X2).
  assert (b' = b) as -> by congruence.
  exists c1, σ1, c2, σ2, b. repeat split; try done.
  by apply (extends_readCard _ _ _ _ X2).
Qed.

(** C9.  Neither the filter nor [toBattleCard] changes an object that was in
    the store at the call: the filter leaves the store as it found it, and
    [toBattleCard] only adds the card and its counters, so that every insight
    reads back as before, its tags included. *)
Theorem core_never_mutates_insights
    (σ : store) (insights : list loc) (from to competitor query : string) (l : loc) :
  (filteredS insights from to competitor query σ).2 = σ
  ∧ extends σ (toBattleCardS l σ).2
  ∧ (∀ k i, readInsight σ k = Some i →
            readInsight (toBattleCardS l σ).2 k = Some i).
Proof.
  split; [apply filterS_read|]. split; [apply toBattleCardS_extends|].
  intros k i. apply extends_readInsight, toBattleCardS_extends.
Qed.


(** ** More on the classifier: tags as a set *)

Lemma toLowerCase_join (l : list string) :
  toLowerCase (join " " l) = join " " (map toLowerCase l).
Proof.
  induction l as [|x [|y l] IH]; try done.
  change (join " " (x :: y :: l)) with (x +:+ " " +:+ join " " (y :: l)).
  change (map toLowerCase (x :: y :: l))
    with (toLowerCase x :: map toLowerCase (y :: l)).
  change (join " " (toLowerCase x :: map toLowerCase (y :: l)))
    with (toLowerCase x +:+ " " +:+ join " " (map toLowerCase (y :: l))).
  by rewrite !toLowerCase_app, IH.
Qed.

Lemma app_prefix_split (c : ascii) (w y a b : string) :
  occurs c w = false → w +:+ y = a +:+ String c b → ∃ r, a = w +:+ r.
Proof.
  revert a. induction w as [|e w IH]; intros a Hc E; [by exists a|].
  simpl in Hc. apply orb_false_iff in Hc as [Hce Hc].
  destruct a as [|e' a]; simpl in E.
  - injection E as -> _. by rewrite Ascii.eqb_refl in Hce.
  - injection E as -> E. destruct (IH a Hc E) as [r ->]. by exists r.
Qed.

Lemma substring_sep (c : ascii) (w a b : string) :
  occurs c w = false → substring w (a +:+ String c b) → substring w a ∨ substring w b.
Proof.
  intros Hc (x & y & E). revert a E.
  induction x as [|d x IH]; intros a E.
  - left. destruct (app_prefix_split c w y a b Hc (eq_sym E)) as [r ->].
    apply substring_here.
  - destruct a as [|d' a]; simpl in E.
    + right. injection E as _ ->. by exists x, y.
    + injection E as _ E. destruct (IH a E) as [H|H]; [left | by right].
      by apply (substring_app_r w (String d' "") a).
Qed.

Lemma substring_empty (w : string) : substring w "" → w = "".
Proof.
  intros ([|? a] & b & E); [|discriminate].
  by destruct w.
Qed.

Lemma substring_join_inv (w : string) (l : list string) :
  occurs " " w = false → w ≠ "" → substring w (join " " l) →
  ∃ t, t ∈ l ∧ substring w t.
Proof.
  intros Hc Hw. induction l as [|x [|y l] IH]; intros H.
  - by apply substring_empty in H.
  - exists x. split; [by constructor | done].
  - change (join " " (x :: y :: l)) with (x +:+ String " " (join " " (y :: l))) in H.
    apply (substring_sep _ _ _ _ Hc) in H as [H|H].
    + exists x. split; [by constructor | done].
    + destruct (IH H) as (t & Ht & Hs). exists t. split; [by constructor | done].
Qed.

Lemma blob_matches (words tags : list string) :
  Forall (fun w => occurs " " w = false ∧ w ≠ "" ∧ toLowerCase w = w) words →
  (∃ w, w ∈ words ∧ substring w (toLowerCase (join " " tags)))
  ↔ ∃ t, t ∈ tags ∧ tagMatches words t.
Proof.
  intros Hws. split.
  - intros (w & Hw & H).
    destruct (proj1 (Forall_forall _ _) Hws w Hw) as (Hc & Hne & Hl).
    rewrite toLowerCase_join in H.
    destruct (substring_join_inv _ _ Hc Hne H) as (t' & Ht' & Hs).
    apply list_elem_of_In, in_map_iff in Ht' as (t & <- & Ht).
    exists t. split; [by apply list_elem_of_In|].
    exists w. split; [done|]. unfold ciSubstring. by rewrite Hl.
  - intros (t & Ht & w & Hw & H).
    destruct (proj1 (Forall_forall _ _) Hws w Hw) as (_ & _ & Hl).
    exists w. split; [done|]. unfold ciSubstring in H. rewrite Hl in H.
    eapply substring_trans; [exact H|].
    by apply substring_toLowerCase, substring_join.
Qed.

Lemma criticalRe_per_tag (tags : list string) :
  test criticalRe (toLowerCase (join " " tags)) = true
  ↔ ∃ t, t ∈ tags ∧ tagMatches criticalWords t.
Proof.
  rewrite test_spec. apply blob_matches. by repeat constructor.
Qed.

Lemma watchRe_per_tag (tags : list string) :
  test watchRe (toLowerCase (join " " tags)) = true
  ↔ ∃ t, t ∈ tags ∧ tagMatches watchWords t.
Proof.
  rewrite test_spec. rewrite <- (blob_matches watchWords) by (by repeat constructor).
  simpl. unfold watchWords.
  split; intros (w & Hw & H); exists w; (split; [|done]);
    revert Hw; rewrite !elem_of_cons, !elem_of_nil; clear; tauto.
Qed.

Lemma blob_matchesH (lower : string → string) (words tags : list string) :
  lower (join " " tags) = join " " (map lower tags) →
  Forall (fun w => occurs " " w = false ∧ w ≠ "" ∧ lower w = w) words →
  (∃ w, w ∈ words ∧ substring w (lower (join " " tags)))
  ↔ ∃ t, t ∈ tags ∧ tagMatchesH lower words t.
Proof.
  intros Hj Hws. rewrite Hj. split.
  - intros (w & Hw & H).
    destruct (proj1 (Forall_forall _ _) Hws w Hw) as (Hc & Hne & Hl).
    destruct (substring_join_inv _ _ Hc Hne H) as (t' & Ht' & Hs).
    apply list_elem_of_In, in_map_iff in Ht' as (t & <- & Ht).
    exists t. split; [by apply list_elem_of_In|].
    exists w. split; [done|]. unfold ciSubstringH. by rewrite Hl.
  - intros (t & Ht & w & Hw & H).
    destruct (proj1 (Forall_forall _ _) Hws w Hw) as (_ & _ & Hl).
    exists w. split; [done|]. unfold ciSubstringH in H. rewrite Hl in H.
    eapply substring_trans; [exact H|].
    apply substring_join, list_elem_of_In, in_map, list_elem_of_In, Ht.
Qed.

(** X1.  The severity is decided tag by tag: the space that joins the tags
    never completes a word.  [critical] exactly when some tag contains
    pricing, price or bundle (in any case); [info] exactly when no tag
    contains any of the six words; [watch] in between.  Letter case is the
    host's: its [toLowerCase] has to lower-case the joined tags tag by tag
    and leave the six words as they are. *)
Theorem inferSeverity_per_tag (lower : string → string) (tags : list string) :
  lower (join " " tags) = join " " (map lower tags) →
  (∀ w, w ∈ criticalWords ++ watchWords → lower w = w) →
  (inferSeverityH lower tags = critical
   ↔ ∃ t, t ∈ tags ∧ tagMatchesH lower criticalWords t)
  ∧ (inferSeverityH lower tags = watch
     ↔ (¬ ∃ t, t ∈ tags ∧ tagMatchesH lower criticalWords t)
       ∧ ∃ t, t ∈ tags ∧ tagMatchesH lower watchWords t)
  ∧ (inferSeverityH lower tags = info
     ↔ ∀ t, t ∈ tags →
            ¬ tagMatchesH lower criticalWords t ∧ ¬ tagMatchesH lower watchWords t).
Proof.
  clear parseDate toLocaleString. intros Hj Hw.
  assert (Hc : test criticalRe (lower (join " " tags)) = true
               ↔ ∃ t, t ∈ tags ∧ tagMatchesH lower criticalWords t).
  { rewrite test_spec. change (literals criticalRe) with criticalWords.
    apply (blob_matchesH _ _ _ Hj).
    apply Forall_forall. intros w Hin.
    assert (Hl : lower w = w) by (apply Hw, elem_of_app; by left).
    revert Hin Hl. unfold criticalWords. rewrite !elem_of_cons, elem_of_nil.
    intros [->|[->|[->|[]]]] Hl; by repeat split. }
  assert (Hw' : test watchRe (lower (join " " tags)) = true
                ↔ ∃ t, t ∈ tags ∧ tagMatchesH lower watchWords t).
  { rewrite test_spec.
    rewrite <- (blob_matchesH lower watchWords tags Hj).
    - simpl. unfold watchWords.
      split; intros (w & Hin & H); exists w; (split; [|done]);
        revert Hin; rewrite !elem_of_cons, !elem_of_nil; clear; tauto.
    - apply Forall_forall. intros w Hin.
      assert (Hl : lower w = w) by (apply Hw, elem_of_app; by right).
      revert Hin Hl. unfold watchWords. rewrite !elem_of_cons, elem_of_nil.
      intros [->|[->|[->|[]]]] Hl; by repeat split. }
  assert (Hi : (∀ t, t ∈ tags →
                  ¬ tagMatchesH lower criticalWords t ∧ ¬ tagMatchesH lower watchWords t)
               ↔ ¬ (∃ t, t ∈ tags ∧ tagMatchesH lower criticalWords t)
                 ∧ ¬ (∃ t, t ∈ tags ∧ tagMatchesH lower watchWords t)).
  { clear. split.
    - intros H. split; intros (t & Ht & Hm); destruct (H t Ht); tauto.
    - intros [H1 H2] t Ht. split; intros Hm; [apply H1 | apply H2]; eauto. }
  rewrite Hi, <- Hc, <- Hw'. unfold inferSeverityH.
  destruct (test criticalRe _), (test watchRe _); intuition congruence.
Qed.

(** X2.  Tags are a set for the classifier: two tag lists with the same
    elements, in whatever order and multiplicity, get the same severity. *)
Theorem inferSeverity_tags_as_set (tags1 tags2 : list string) :
  (∀ t, t ∈ tags1 ↔ t ∈ tags2) → inferSeverity tags1 = inferSeverity tags2.
Proof.
  clear parseDate toLocaleString. intros H.
  assert (Hc : test criticalRe (toLowerCase (join " " tags1))
               = test criticalRe (toLowerCase (join " " tags2))).
  { apply eq_iff_eq_true. rewrite !criticalRe_per_tag.
    split; intros (t & Ht & Hm); exists t; (split; [by apply H | done]). }
  assert (Hw : test watchRe (toLowerCase (join " " tags1))
               = test watchRe (toLowerCase (join " " tags2))).
  { apply eq_iff_eq_true. rewrite !watchRe_per_tag.
    split; intros (t & Ht & Hm); exists t; (split; [by apply H | done]). }
  unfold inferSeverity. by rewrite Hc, Hw.
Qed.

(** X3.  More tags never lower the severity: with info below watch below
    critical, a tag list that contains all tags of another ranks at least as
    high. *)
Theorem inferSeverity_monotone (tags tags' : list string) :
  (∀ t, t ∈ tags → t ∈ tags') →
  (rank (inferSeverity tags) ≤ rank (inferSeverity tags'))%nat.
Proof.
  clear parseDate toLocaleString. intros H.
  pose proof (criticalRe_per_tag tags) as Hc.
  pose proof (criticalRe_per_tag tags') as Hc'.
  pose proof (watchRe_per_tag tags) as Hw.
  pose proof (watchRe_per_tag tags') as Hw'.
  unfold inferSeverity.
  destruct (test criticalRe (toLowerCase (join " " tags))).
  - destruct (proj1 Hc eq_refl) as (t & Ht & Hm).
    rewrite (proj2 Hc') by (exists t; auto). done.
  - destruct (test watchRe (toLowerCase (join " " tags))).
    + destruct (proj1 Hw eq_refl) as (t & Ht & Hm).
      rewrite (proj2 Hw') by (exists t; auto).
      destruct (test criticalRe _); simpl; lia.
    + simpl. lia.
Qed.

(** ** More on the filter *)

Lemma filter_all {A} (p : A → bool) (l : list A) :
  (∀ x, x ∈ l → p x = true) → List.filter p l = l.
Proof.
  induction l as [|x l IH]; intros H; simpl; [done|].
  rewrite (H x) by constructor. f_equal. apply IH. intros y Hy. apply H. by constructor.
Qed.

Lemma filter_refine {A} (p p' : A → bool) (l : list A) :
  (∀ x, p' x = true → p x = true) →
  List.filter p' (List.filter p l) = List.filter p' l.
Proof.
  intros H. induction l as [|x l IH]; simpl; [done|].
  destruct (p x) eqn:E; simpl.
  - destruct (p' x); by rewrite IH.
  - destruct (p' x) eqn:E'; [|done]. apply H in E'. congruence.
Qed.

Lemma ge_getTime_valid (i : insight) (start : number) :
  ge (getTime (Insight.date i)) start = true → validDate i.
Proof.
  unfold validDate, getTime. destruct (parseDate (Insight.date i)); [eauto|].
  by destruct start.
Qed.

(** X4.  Whatever the bounds and the query, malformed or not, a record the
    filter returns is one of the input, has a date the host can read, and has
    the selected competitor (when one is selected). *)
Theorem filtered_sound
    (insights : list insight) (from to competitor query : string) (i : insight) :
  i ∈ filtered insights from to competitor query →
  i ∈ insights
  ∧ validDate i
  ∧ (competitor = "All" ∨ Insight.competitor i = competitor).
Proof.
  clear toLocaleString.
  intros H. apply list_elem_of_In, filter_In in H as [Hin Hk].
  split; [by apply list_elem_of_In|].
  unfold keep in Hk. cbv zeta in Hk.
  apply andb_true_iff in Hk as [[Hr Hc]%andb_true_iff _].
  apply andb_true_iff in Hr as [Hr _]. split.
  - by apply ge_getTime_valid in Hr.
  - apply orb_true_iff in Hc as [Hc|Hc]; apply String.eqb_eq in Hc; auto.
Qed.

(** X5.  An inverted range, the lower bound after the upper one, selects
    nothing. *)
Theorem filtered_inverted_range_empty
    (insights : list insight) (from to competitor query : string) (f e : Z) :
  boundOf from (Some f) → boundOf to (Some e) → e < f →
  filtered insights from to competitor query = [].
Proof.
  clear toLocaleString.
  intros Hf He Hlt. unfold filtered. apply filter_none. intros i.
  apply not_true_is_false. rewrite (keep_spec _ _ _ _ _ _ _ Hf He).
  intros ((t & _ & H1 & H2) & _).
  specialize (H1 f eq_refl). specialize (H2 e eq_refl). lia.
Qed.

Lemma looser_inRange (fromDate toDate fromDate' toDate' : option Z) (i : insight) :
  looser Z.le fromDate fromDate' → looser Z.ge toDate toDate' →
  specInRange fromDate' toDate' i → specInRange fromDate toDate i.
Proof.
  intros Hf Ht (t & Hp & H1 & H2). exists t. split; [done|]. split.
  - intros f ->. destruct fromDate' as [f'|]; simpl in Hf; [|done].
    specialize (H1 f' eq_refl). lia.
  - intros e ->. destruct toDate' as [e'|]; simpl in Ht; [|done].
    specialize (H2 e' eq_refl). lia.
Qed.

(** X6.  Narrowing the date range of a filtered list gives what the narrower
    range gives on the original list: when the range from [from'] to [to']
    lies within the range from [from] to [to], filtering the result of the
    wider filter with the narrower bounds equals filtering the input with
    them. *)
Theorem filtered_narrow_range
    (insights : list insight) (from to from' to' competitor query : string)
    (fromDate toDate fromDate' toDate' : option Z) :
  boundOf from fromDate → boundOf to toDate →
  boundOf from' fromDate' → boundOf to' toDate' →
  looser Z.le fromDate fromDate' → looser Z.ge toDate toDate' →
  filtered (filtered insights from to competitor query) from' to' competitor query
  = filtered insights from' to' competitor query.
Proof.
  clear toLocaleString.
  intros Hf Ht Hf' Ht' Lf Lt. unfold filtered. apply filter_refine. intros i.
  rewrite (keep_spec _ _ _ _ _ _ _ Hf Ht), (keep_spec _ _ _ _ _ _ _ Hf' Ht').
  intros (Hr & Hc & Hq). split; [|done].
  by apply (looser_inRange _ _ fromDate' toDate').
Qed.

Lemma lowerChar_idem (c : ascii) : lowerChar (lowerChar c) = lowerChar c.
Proof. by destruct c as [[] [] [] [] [] [] [] []]. Qed.

Lemma isWhiteSpace_lowerChar (c : ascii) : isWhiteSpace (lowerChar c) = isWhiteSpace c.
Proof. by destruct c as [[] [] [] [] [] [] [] []]. Qed.

Lemma toLowerCase_idem (s : string) : toLowerCase (toLowerCase s) = toLowerCase s.
Proof.
  induction s as [|c s IH]; simpl; [done|]. by rewrite lowerChar_idem, IH.
Qed.

Lemma trimStart_toLowerCase (s : string) :
  trimStart (toLowerCase s) = toLowerCase (trimStart s).
Proof.
  induction s as [|c s IH]; simpl; [done|].
  rewrite isWhiteSpace_lowerChar. by destruct (isWhiteSpace c).
Qed.

Lemma trimEnd_toLowerCase (s : string) :
  trimEnd (toLowerCase s) = toLowerCase (trimEnd s).
Proof.
  induction s as [|c s IH]; simpl; [done|].
  rewrite IH, isWhiteSpace_lowerChar.
  destruct (trimEnd s); simpl; [by destruct (isWhiteSpace c) | done].
Qed.

Lemma trim_toLowerCase (s : string) : trim (toLowerCase s) = toLowerCase (trim s).
Proof. unfold trim. by rewrite trimStart_toLowerCase, trimEnd_toLowerCase. Qed.

Lemma trimEnd_idem (s : string) : trimEnd (trimEnd s) = trimEnd s.
Proof.
  induction s as [|c s IH]; simpl; [done|].
  destruct (trimEnd s) as [|a r] eqn:E.
  - destruct (isWhiteSpace c) eqn:Ec; simpl; [done | by rewrite Ec].
  - change (trimEnd (String c (String a r)))
      with (match trimEnd (String a r) with
            | EmptyString => if isWhiteSpace c then EmptyString else String c EmptyString
            | r' => String c r'
            end).
    by rewrite IH.
Qed.

Lemma trimStart_head (s : string) :
  trimStart s = "" ∨ ∃ c r, trimStart s = String c r ∧ isWhiteSpace c = false.
Proof.
  induction s as [|c s IH]; simpl; [by left|].
  destruct (isWhiteSpace c) eqn:E; [done | right; eauto].
Qed.

Lemma trimEnd_head (c : ascii) (r : string) :
  isWhiteSpace c = false → ∃ r', trimEnd (String c r) = String c r'.
Proof.
  intros H. simpl. destruct (trimEnd r); [rewrite H|]; eauto.
Qed.

Lemma trim_idem (s : string) : trim (trim s) = trim s.
Proof.
  unfold trim. destruct (trimStart_head s) as [->|(c & r & -> & Hc)]; [done|].
  destruct (trimEnd_head c r Hc) as [r' E]. rewrite E.
  simpl trimStart. rewrite Hc, <- E. apply trimEnd_idem.
Qed.

(** X7.  The query is read up to letter case and surrounding white space:
    lower-casing it or trimming it beforehand changes no result. *)
Theorem filtered_query_normalised
    (insights : list insight) (from to competitor query : string) :
  filtered insights from to competitor (toLowerCase query)
  = filtered insights from to competitor query
  ∧ filtered insights from to competitor (trim query)
    = filtered insights from to competitor query.
Proof.
  clear toLocaleString. unfold filtered.
  by rewrite trim_toLowerCase, toLowerCase_idem, trim_idem.
Qed.

(** X8.  With the controls at rest (no bounds, competitor "All", a query that
    is empty or blank) the feed shows every insight whose date the host can
    read, so all of them when all dates are valid. *)
Theorem filtered_at_rest (insights : list insight) (query : string) :
  trim query = "" → Forall validDate insights →
  filtered insights "" "" "All" query = insights.
Proof.
  clear toLocaleString.
  intros Hq Hv. unfold filtered. rewrite Hq. apply filter_all. intros i Hi.
  destruct (proj1 (Forall_forall _ _) Hv i Hi) as [t Ht].
  unfold keep, getTime. by rewrite Ht.
Qed.

(** ** More on the battle card *)

Lemma arrayIncludes_decide {A} (x : string) (l : list string) (u v : A) :
  (if decide (x ∈ l) then u else v) = if arrayIncludes x l then u else v.
Proof.
  destruct (arrayIncludes x l) eqn:E.
  - apply arrayIncludes_spec in E. by rewrite decide_True.
  - apply arrayIncludes_false in E. by rewrite decide_False.
Qed.


(** X10.  The card does not copy the tags: its [tags] is the very array of
    the insight.  Whatever that array is later made to hold shows through the
    card's tags, while the card's counters, an array of its own, stay. *)
Theorem toBattleCardS_shares_tags
    (σ : store) (l : loc) (io : Insight.t loc) (a : loc) (ts : list string) :
  σ !! l = Some (InsightObj io) → Insight.tags io = Some a → σ !! a = Some (Arr ts) →
  ∃ c σ',
    toBattleCardS l σ = (Some c, σ')
    ∧ ∀ xs, BattleCard.tags <$> readCard (<[a:=Arr xs]> σ') c = Some (Some xs)
            ∧ BattleCard.counters <$> readCard (<[a:=Arr xs]> σ') c
              = BattleCard.counters <$> readCard σ' c.
Proof.
  intros Hl Ha Hts.
  destruct (toBattleCardS_alloc σ l io Hl) as (lc & lb & σ2 & E & Hlc & Hlb & Hne & B0).
  destruct (augment_run σ l io a ts lc lb Hl Ha Hts Hlc Hlb Hne σ2 B0)
    as (σ' & b & Er & _ & _ & _).
  destruct (augment_building σ l io lc lb Hne _ _ _ B0) as (cs & imp & B).
  rewrite Er in B. simpl in B. pose proof B as (Hc & Hb & _).
  pose proof (building_old σ io lc lb Hlc Hlb _ _ _ _ _ B Hts) as Hts'.
  exists lb, σ'. split; [by rewrite E|]. intros xs.
  assert (lb ≠ a) by congruence. assert (lc ≠ a) by congruence.
  unfold readCard, readArr, readTags.
  rewrite lookup_insert_ne, Hb by done. simpl.
  rewrite lookup_insert_ne, Hc by done. simpl.
  rewrite Ha. unfold readArr. simpl.
  rewrite lookup_insert_eq, Hts'. done.
Qed.

(** X11.  An insight without [tags]: [toBattleCard] throws, on the store as
    on values, and [curate] leaves the curated list as it was. *)
Theorem missing_tags_throw
    (σ : store) (l : loc) (i : insight) (prev : list Curated.t) :
  readInsight σ l = Some i → Insight.tags i = None →
  (toBattleCardS l σ).1 = None ∧ toBattleCard i = None ∧ curate i prev = prev.
Proof.
  intros Hr Ht.
  assert (Hv : toBattleCard i = None) by (unfold toBattleCard; by rewrite Ht).
  split; [|split; [done | unfold curate; by rewrite Hv]].
  unfold readInsight in Hr. destruct (σ !! l) as [[| io |]|] eqn:Hl; try done.
  destruct (Insight.tags io) as [a|] eqn:Ha.
  { simpl in Hr. destruct (readArr σ a); simpl in Hr; [|done].
    injection Hr as <-. done. }
  destruct (toBattleCardS_alloc σ l io Hl) as (lc & lb & σ2 & E & Hlc & Hlb & Hne & B0).
  rewrite E. unfold augment.
  rewrite (bind_throw _ _ σ2 σ2); [done|].
  unfold tagsInclude, getInsight, required, mbind, M_bind, bind, throw.
  by rewrite (building_old σ io lc lb Hlc Hlb _ _ _ _ _ B0 Hl), Ha.
Qed.

(** ** More on curation *)

(** X12.  Curating the same insight again changes nothing. *)
Theorem curate_idempotent (i : insight) (prev : list Curated.t) :
  curate i (curate i prev) = curate i prev.
Proof.
  unfold curate. destruct (toBattleCard i) as [b|]; [|done].
  cbv zeta. simpl. rewrite String.eqb_refl. simpl. f_equal. apply filter_idem.
Qed.

Lemma cardsOf_filter_other (k k' : string) (prev : list Curated.t) :
  k ≠ k' →
  cardsOf k (List.filter (fun x => negb (String.eqb (Curated.id x) k')) prev)
  = cardsOf k prev.
Proof.
  intros Hne. unfold cardsOf. induction prev as [|c prev IH]; simpl; [done|].
  destruct (String.eqb_spec (Curated.id c) k') as [E|E]; simpl.
  - destruct (String.eqb_spec (Curated.id c) k); [congruence | done].
  - by rewrite IH.
Qed.

(** X13.  Curating an insight touches the cards of no other id: for every
    other id the cards kept, and their order, are the same before and after. *)
Theorem curate_other_ids (i : insight) (prev : list Curated.t) (k : string) :
  k ≠ Insight.id i → cardsOf k (curate i prev) = cardsOf k prev.
Proof.
  intros Hne. unfold curate. destruct (toBattleCard i) as [b|]; [|done].
  cbv zeta. unfold cardsOf at 1. simpl.
  destruct (String.eqb_spec (Insight.id i) k); [congruence|].
  by apply cardsOf_filter_other.
Qed.

Lemma curate_ids (i : insight) (prev : list Curated.t) (k : string) :
  k ∈ Curated.id <$> curate i prev
  ↔ (is_Some (Insight.tags i) ∧ k = Insight.id i) ∨ k ∈ Curated.id <$> prev.
Proof.
  unfold curate. pose proof (toBattleCard_is_Some i) as Hs.
  destruct (toBattleCard i) as [b|].
  - cbv zeta. rewrite fmap_cons, elem_of_cons. simpl.
    assert (Ht : is_Some (Insight.tags i)) by (apply Hs; eauto).
    rewrite !list_elem_of_fmap. split.
    + intros [->|(x & -> & Hx)]; [by left | right].
      apply list_elem_of_In, filter_In in Hx as [Hx _].
      exists x. split; [done | by apply list_elem_of_In].
    + intros [[_ ->]|(x & -> & Hx)]; [by left|].
      destruct (String.eqb_spec (Curated.id x) (Insight.id i)) as [E|E]; [by left|].
      right. exists x. split; [done|].
      apply list_elem_of_In, filter_In. split; [by apply list_elem_of_In|].
      simpl. by destruct (String.eqb_spec (Curated.id x) (Insight.id i)).
  - split; [by right|]. intros [[Ht _]|H]; [|done].
    apply Hs in Ht. by destruct Ht.
Qed.

(** X14.  Starting from no cards, after any sequence of curations the
    curated ids are pairwise distinct, and they are exactly the ids of the
    curated insights that have tags. *)
Theorem curate_history_ids (history : list insight) :
  let curated := foldl (fun prev i => curate i prev) [] history in
  NoDup (Curated.id <$> curated)
  ∧ ∀ k, k ∈ Curated.id <$> curated
         ↔ ∃ i, i ∈ history ∧ Insight.id i = k ∧ is_Some (Insight.tags i).
Proof.
  split; [apply curate_history_NoDup|].
  assert (H : ∀ prev k,
    k ∈ Curated.id <$> foldl (fun prev i => curate i prev) prev history
    ↔ k ∈ Curated.id <$> prev
      ∨ ∃ i, i ∈ history ∧ Insight.id i = k ∧ is_Some (Insight.tags i)).
  { induction history as [|i history IH]; intros prev k; simpl.
    - split; [by left|]. intros [H|(i & Hi & _)]; [done|]. by apply elem_of_nil in Hi.
    - rewrite IH, curate_ids. split.
      + intros [[[Ht ->]|H]|(j & Hj & E & Ht)].
        * right. exists i. split; [by constructor | done].
        * by left.
        * right. exists j. split; [by constructor | done].
      + intros [H|(j & [->|Hj]%elem_of_cons & E & Ht)].
        * left. by right.
        * left. left. done.
        * right. by exists j. }
  intros k. rewrite H. split; [|by right].
  intros [Hk|Hk]; [|done]. by apply elem_of_nil in Hk.
Qed.

(** ** More on the team update *)

(** X15.  The team update looks at the first eight insights only: what
    follows them changes nothing. *)
Theorem markdown_beyond_eight (l more : list insight) (now : Z) :
  (8 ≤ length l)%nat → markdown (l ++ more) now = markdown l now.
Proof. intros H. unfold markdown. by rewrite take_app_le. Qed.

(** ** The metrics *)

Lemma distinct_le (l : list string) :
  (size (list_to_set l : gset string) ≤ length l)%nat.
Proof.
  induction l as [|x l IH].
  { change (size (∅ : gset string) ≤ 0)%nat. by rewrite size_empty. }
  rewrite list_to_set_cons, size_union_alt, size_singleton. simpl.
  pose proof (subseteq_size (list_to_set l ∖ {[x]}) (list_to_set l : gset string)) as H.
  assert (Hs : list_to_set l ∖ {[x]} ⊆ (list_to_set l : gset string)).
  { intros y Hy. by apply elem_of_difference in Hy as [Hy _]. }
  specialize (H Hs). lia.
Qed.

Lemma distinct_zero (l : list string) :
  size (list_to_set l : gset string) = 0%nat ↔ l = [].
Proof.
  split; [|by intros ->].
  intros H%size_empty_iff. destruct l as [|x l]; [done|].
  exfalso. apply (not_elem_of_empty (C:=gset string) x), H.
  apply elem_of_list_to_set. by constructor.
Qed.

(** X16.  The coverage metric is the number of distinct competitor names; it
    never exceeds the number of items and is zero only for an empty feed. *)
Theorem coverage_distinct (insights : list insight) :
  coverage insights = length (remove_dups (map Insight.competitor insights))
  ∧ (coverage insights ≤ totalItems insights)%nat
  ∧ (coverage insights = 0%nat ↔ insights = []).
Proof.
  clear parseDate toLocaleString.
  unfold coverage, totalItems. split; [|split].
  - rewrite <- (size_list_to_set (C:=gset string))
      by apply NoDup_remove_dups.
    f_equal. apply set_eq. intros x.
    by rewrite !elem_of_list_to_set, elem_of_remove_dups.
  - pose proof (distinct_le (map Insight.competitor insights)) as H.
    by rewrite length_map in H.
  - rewrite distinct_zero. by destruct insights.
Qed.

(** ** Loading *)

(** X17.  A cancelled load changes nothing, whatever arrived and in whatever
    mode. *)
Theorem load_cancelled (DEV : bool) (r : response) (s : AppState.t) :
  load DEV true r s = s.
Proof.
  clear parseDate toLocaleString.
  unfold load, tryLoad. rewrite andb_false_r.
  by destruct r as [|[] [[]|]].
Qed.

Lemma load_production (r : response) (s : AppState.t) :
  load false false r s
  = AppState.mk (default (AppState.insights s) (arrayOf r)) false.
Proof. by destruct r as [|[] [[]|]]. Qed.

(** X18.  In production the feed holds the array of the latest response that
    delivered one, and the initial insights while none has: failed fetches,
    error statuses, unreadable bodies and bodies that are no array leave the
    earlier insights in place.  After the first response the skeleton state
    is over. *)
Theorem refresh_production (rs : list response) (s : AppState.t) :
  AppState.insights (refresh false rs s)
  = default (AppState.insights s) (last (omap arrayOf rs))
  ∧ (rs ≠ [] → AppState.loading (refresh false rs s) = false).
Proof.
  clear parseDate toLocaleString. unfold refresh.
  induction rs as [|r rs IH] using rev_ind; [done|].
  rewrite foldl_snoc, load_production, omap_app, last_app. simpl.
  destruct IH as [IH _]. split; [|done].
  rewrite IH. by destruct (arrayOf r).
Qed.

(** In development a failed load (rejected fetch, error status, unreadable
    body) shows the seeds, but a body that parses and is no array throws
    nothing and so leaves the insights as they were. *)
Lemma load_dev_fallback (r : response) (s : AppState.t) :
  AppState.insights (load true false r s)
  = match r with
    | Received true (Some (JArray d)) => d
    | Received true (Some JOther) => AppState.insights s
    | _ => seedInsights
    end.
Proof. clear parseDate toLocaleString. by destruct r as [|[] [[]|]]. Qed.

(** ** Persisted state *)

(** X19.  What was saved under a key is what the next start restores, when
    the codec reads back what it writes; a save that does not fit leaves the
    earlier value to be restored; and a save under one key does not change
    what another key restores. *)
Theorem localStorage_round_trip {T}
    (parse : string → option T) (stringify : T → string)
    (m : gmap string string) (key key' : string) (v initial : T) (fits : bool) :
  parse (stringify v) = Some v → stringify v ≠ "" → key ≠ key' →
  initialState parse (persist stringify true (Some m) key v) key initial = v
  ∧ initialState parse (persist stringify false (Some m) key v) key initial
    = initialState parse (Some m) key initial
  ∧ initialState parse (persist stringify fits (Some m) key v) key' initial
    = initialState parse (Some m) key' initial.
Proof.
  clear parseDate toLocaleString.
  intros Hp Hne%truthy_true Hk. unfold initialState, persist. split; [|split].
  - by rewrite lookup_insert_eq, Hne, Hp.
  - done.
  - destruct fits; [|done]. by rewrite lookup_insert_ne.
Qed.

End App.

(** ** The pipeline at the concrete host: UTC, en-US *)

Example isoParse_date_only : isoParse "2024-01-15" = Some 1705276800000.
Proof. reflexivity. Qed.

Example isoParse_date_time : isoParse "2024-01-15T09:05:00.250Z" = Some 1705309500250.
Proof. reflexivity. Qed.

Example isoParse_not_a_date : isoParse "not-a-date" = None.
Proof. reflexivity. Qed.

Example enUS_morning : enUS (Some 1705309500250) = "1/15/2024, 9:05:00 AM".
Proof. vm_compute. reflexivity. Qed.

Example enUS_leap_day : enUS (isoParse "2000-02-29T23:59:59Z") = "2/29/2000, 11:59:59 PM".
Proof. vm_compute. reflexivity. Qed.

Example seed_severities :
  map (fun i => inferSeverity (default [] (Insight.tags i))) seedInsights
  = [info; watch; critical; watch; info].
Proof. vm_compute. reflexivity. Qed.

Lemma inferSeverity_ordered_rules_witness :
  toLowerCase (join " " ["Roadmap"; "AI"; "PRICING tiers"])
  = join " " (map toLowerCase ["Roadmap"; "AI"; "PRICING tiers"])
  ∧ toLowerCase "pricing" = "pricing"
  ∧ "PRICING tiers" ∈ ["Roadmap"; "AI"; "PRICING tiers"]
  ∧ ciSubstringH toLowerCase "pricing" "PRICING tiers"
  ∧ inferSeverityH toLowerCase ["Roadmap"; "AI"; "PRICING tiers"] = critical.
Proof.
  assert (H1 : "PRICING tiers" ∈ ["Roadmap"; "AI"; "PRICING tiers"])
    by (apply list_elem_of_In; simpl; tauto).
  assert (H2 : ciSubstringH toLowerCase "pricing" "PRICING tiers")
    by (by exists "", " tiers").
  split; [reflexivity|]. split; [reflexivity|]. split; [exact H1|]. split; [exact H2|].
  exact (proj2 (proj2 (proj2
           (inferSeverity_ordered_rules toLowerCase ["Roadmap"; "AI"; "PRICING tiers"])))
           eq_refl eq_refl "PRICING tiers" H1 H2).
Defined.





(** C3, as stated, fails twice.  The code trims the query "sif " to "sif"
    and keeps [i5] for its tag "SIF", though "sif " with its space occurs in
    none of the three fields.  And with no bound set, where the contract
    asks nothing of the date, the code drops the record whose date is no
    date. *)
Lemma filtered_contract_counterexample :
  filteredH isoParse toLowerCase trim [i5] "" "" "All" "sif " = [i5]
  ∧ ¬ claimedKeep isoParse toLowerCase None None "All" "sif " i5
  ∧ filteredH isoParse toLowerCase trim [iBadDate] "" "" "All" "" = []
  ∧ claimedKeep isoParse toLowerCase None None "All" "" iBadDate.
Proof.
  split; [reflexivity|]. split; [|split; [reflexivity|]].
  - intros (_ & _ & [H | [(s & [= <-] & H) | [(s & [= <-] & H) | H]]]);
      [discriminate | | |];
      apply includes_spec in H; vm_compute in H; discriminate.
  - split; [split; intros ? [=]|]. split; [by left | by left].
Qed.

Lemma filtered_contract_witness :
  (∀ s, toLowerCase s = "" ↔ s = "")
  ∧ boundOf isoParse "2024-03-09" (Some 1709942400000)
  ∧ boundOf isoParse "" None
  ∧ ∃ p : insight → bool,
      (∀ i, p i = true
            ↔ specKeepH isoParse toLowerCase (Some 1709942400000) None "All"
                (trim " onboarding ") i)
      ∧ filteredH isoParse toLowerCase trim seedInsights "2024-03-09" "" "All" " onboarding "
        = List.filter p seedInsights
      ∧ sublist
          (filteredH isoParse toLowerCase trim seedInsights "2024-03-09" "" "All"
             " onboarding ")
          seedInsights.
Proof.
  assert (H1 : boundOf isoParse "2024-03-09" (Some 1709942400000))
    by (split; [discriminate | reflexivity]).
  assert (H2 : boundOf isoParse "" None) by reflexivity.
  split; [exact toLowerCase_empty|]. split; [exact H1|]. split; [exact H2|].
  exact (filtered_contract isoParse toLowerCase trim seedInsights "2024-03-09" ""
           "All" " onboarding " (Some 1709942400000) None toLowerCase_empty H1 H2).
Defined.

Example filtered_onboarding :
  map Insight.id (filtered isoParse seedInsights "2024-03-09" "" "All" " onboarding ")
  = ["i2"].
Proof. reflexivity. Qed.

Lemma curate_one_card_per_id_witness :
  ∃ b2, toBattleCard isoParse enUS i2' = Some b2
        ∧ NoDup (Curated.id <$> curate isoParse enUS i2 [])
        ∧ cardsOf "i2" (curate isoParse enUS i2' (curate isoParse enUS i2 []))
          = [Curated.mk "i2" "Avetta" b2].
Proof.
  eexists. split; [vm_compute; reflexivity|].
  split.
  - apply (proj1 (curate_one_card_per_id isoParse enUS i2 i2' []
                    (baseCard isoParse enUS baseCounters i2'))).
    constructor.
  - refine (proj2 (curate_one_card_per_id isoParse enUS i2 i2' [] _) eq_refl _).
    vm_compute. reflexivity.
Defined.

Lemma markdown_first_eight_in_order_witness :
  ∃ blocks : list string,
    markdown isoParse enUS (seedInsights ++ seedInsights) seedNow
    = "# Competitor & Market Update" +:+ nl +:+ nl +:+ "3/10/2024, 12:00:00 PM"
      +:+ nl +:+ nl +:+ join (nl +:+ nl) blocks +:+ nl
    ∧ length blocks = 8%nat
    ∧ blocks !! 7%nat
      = Some ("- **KPA Flex** — KPA bundles SDS + Contractor Mgmt in platform license  "
              +:+ nl +:+
              "  Unified pricing (up to 50 users) emphasizes configurability and mobile access; consultative sales motion.  "
              +:+ nl +:+
              "  Source: [Analyst Note](https://example.com/analyst-memo) • 3/8/2024, 10:00:00 AM").
Proof.
  destruct (markdown_first_eight_in_order isoParse enUS (seedInsights ++ seedInsights) seedNow)
    as (blocks & E & Hlen & Hb & _).
  exists blocks. split; [exact E|]. split; [exact Hlen|].
  destruct (lookup_lt_is_Some_2 blocks 7) as [b Hk]; [rewrite Hlen; simpl; lia|].
  destruct (Hb 7%nat b Hk) as (i & Hi & ->).
  injection Hi as <-. exact Hk.
Defined.

Example markdown_seed_head :
  markdown isoParse enUS [i5] seedNow
  = heading enUS seedNow +:+ item isoParse enUS i5 +:+ nl.
Proof. reflexivity. Qed.

Lemma toBattleCard_total_deterministic_witness :
  readInsight seedStore 1%positive = Some i2
  ∧ readInsight seedStore 5%positive = Some i2
  ∧ ∃ c1 σ1 c2 σ2 b,
      toBattleCard isoParse enUS i2 = Some b
      ∧ toBattleCardS isoParse enUS 1%positive seedStore = (Some c1, σ1)
      ∧ readCard σ1 c1 = Some b
      ∧ toBattleCardS isoParse enUS 5%positive σ1 = (Some c2, σ2)
      ∧ readCard σ2 c2 = Some b
      ∧ readCard σ2 c1 = Some b.
Proof.
  assert (H1 : readInsight seedStore 1%positive = Some i2) by (vm_compute; reflexivity).
  assert (H5 : readInsight seedStore 5%positive = Some i2) by (vm_compute; reflexivity).
  split; [exact H1|]. split; [exact H5|].
  apply (toBattleCard_total_deterministic isoParse enUS seedStore 1%positive 5%positive i2 H1 H5).
  eexists. reflexivity.
Defined.

Lemma core_never_mutates_insights_witness :
  readInsight seedStore 3%positive = Some i5
  ∧ (filteredS isoParse [1; 3; 5]%positive "" "" "All" "survey" seedStore).2 = seedStore
  ∧ readInsight (toBattleCardS isoParse enUS 1%positive seedStore).2 3%positive = Some i5
  ∧ readInsight (toBattleCardS isoParse enUS 1%positive seedStore).2 1%positive = Some i2.
Proof.
  assert (H3 : readInsight seedStore 3%positive = Some i5) by (vm_compute; reflexivity).
  assert (H1 : readInsight seedStore 1%positive = Some i2) by (vm_compute; reflexivity).
  destruct (core_never_mutates_insights isoParse enUS seedStore [1; 3; 5]%positive
              "" "" "All" "survey" 1%positive) as (Hf & _ & Hr).
  split; [exact H3|]. split; [exact Hf|]. split; [exact (Hr _ _ H3) | exact (Hr _ _ H1)].
Defined.

(** *** The further properties at the concrete host *)

Lemma inferSeverity_per_tag_witness :
  toLowerCase (join " " ["Maintenance"; "Road map"])
  = join " " (map toLowerCase ["Maintenance"; "Road map"])
  ∧ (∀ w, w ∈ criticalWords ++ watchWords → toLowerCase w = w)
  ∧ (inferSeverityH toLowerCase ["Maintenance"; "Road map"] = watch
     ↔ (¬ ∃ t, t ∈ ["Maintenance"; "Road map"] ∧ tagMatchesH toLowerCase criticalWords t)
       ∧ ∃ t, t ∈ ["Maintenance"; "Road map"] ∧ tagMatchesH toLowerCase watchWords t).
Proof.
  assert (H : ∀ w, w ∈ criticalWords ++ watchWords → toLowerCase w = w).
  { intros w. unfold criticalWords, watchWords. simpl. rewrite !elem_of_cons, elem_of_nil.
    intros [->|[->|[->|[->|[->|[->|[]]]]]]]; reflexivity. }
  split; [reflexivity|]. split; [exact H|].
  exact (proj1 (proj2 (inferSeverity_per_tag toLowerCase ["Maintenance"; "Road map"]
                         eq_refl H))).
Defined.

Lemma inferSeverity_tags_as_set_witness :
  (∀ t, t ∈ ["AI"; "Pricing"; "AI"] ↔ t ∈ ["Pricing"; "AI"])
  ∧ inferSeverity ["AI"; "Pricing"; "AI"] = inferSeverity ["Pricing"; "AI"].
Proof.
  assert (H : ∀ t : string, t ∈ ["AI"; "Pricing"; "AI"] ↔ t ∈ ["Pricing"; "AI"]).
  { intros t. rewrite !elem_of_cons, !elem_of_nil. tauto. }
  split; [exact H|]. exact (inferSeverity_tags_as_set _ _ H).
Defined.

Lemma inferSeverity_monotone_witness :
  (∀ t, t ∈ ["Search"] → t ∈ ["Search"; "AI"])
  ∧ (rank (inferSeverity ["Search"]) ≤ rank (inferSeverity ["Search"; "AI"]))%nat.
Proof.
  assert (H : ∀ t : string, t ∈ ["Search"] → t ∈ ["Search"; "AI"]).
  { intros t. rewrite !elem_of_cons, !elem_of_nil. tauto. }
  split; [exact H|]. exact (inferSeverity_monotone _ _ H).
Defined.

Lemma filtered_sound_witness :
  i2 ∈ filtered isoParse seedInsights "2024-03-09" "2024-03-10" "Avetta" "ai"
  ∧ i2 ∈ seedInsights
  ∧ validDate isoParse i2
  ∧ ("Avetta" = "All" ∨ Insight.competitor i2 = "Avetta").
Proof.
  assert (H : i2 ∈ filtered isoParse seedInsights "2024-03-09" "2024-03-10" "Avetta" "ai").
  { apply list_elem_of_In. vm_compute. left. reflexivity. }
  split; [exact H|].
  exact (filtered_sound isoParse seedInsights "2024-03-09" "2024-03-10" "Avetta" "ai" i2 H).
Defined.

Lemma filtered_inverted_range_empty_witness :
  boundOf isoParse "2024-03-10" (Some 1710028800000)
  ∧ boundOf isoParse "2024-03-09" (Some 1709942400000)
  ∧ filtered isoParse seedInsights "2024-03-10" "2024-03-09" "All" "" = [].
Proof.
  assert (H1 : boundOf isoParse "2024-03-10" (Some 1710028800000))
    by (split; [discriminate | reflexivity]).
  assert (H2 : boundOf isoParse "2024-03-09" (Some 1709942400000))
    by (split; [discriminate | reflexivity]).
  split; [exact H1|]. split; [exact H2|].
  apply (filtered_inverted_range_empty isoParse seedInsights "2024-03-10" "2024-03-09"
           "All" "" 1710028800000 1709942400000 H1 H2).
  reflexivity.
Defined.

Lemma filtered_narrow_range_witness :
  boundOf isoParse "2024-03-08" (Some 1709856000000)
  ∧ boundOf isoParse "2024-03-09" (Some 1709942400000)
  ∧ boundOf isoParse "2024-03-10" (Some 1710028800000)
  ∧ filtered isoParse (filtered isoParse seedInsights "2024-03-08" "" "All" "")
      "2024-03-09" "2024-03-10" "All" ""
    = filtered isoParse seedInsights "2024-03-09" "2024-03-10" "All" "".
Proof.
  assert (H1 : boundOf isoParse "2024-03-08" (Some 1709856000000))
    by (split; [discriminate | reflexivity]).
  assert (H2 : boundOf isoParse "2024-03-09" (Some 1709942400000))
    by (split; [discriminate | reflexivity]).
  assert (H3 : boundOf isoParse "2024-03-10" (Some 1710028800000))
    by (split; [discriminate | reflexivity]).
  split; [exact H1|]. split; [exact H2|]. split; [exact H3|].
  apply (filtered_narrow_range isoParse seedInsights "2024-03-08" "" "2024-03-09"
           "2024-03-10" "All" "" (Some 1709856000000) None
           (Some 1709942400000) (Some 1710028800000) H1 eq_refl H2 H3).
  - simpl. lia.
  - exact I.
Defined.

Lemma filtered_at_rest_witness :
  trim "  " = ""
  ∧ Forall (validDate isoParse) seedInsights
  ∧ filtered isoParse seedInsights "" "" "All" "  " = seedInsights.
Proof.
  assert (H : Forall (validDate isoParse) seedInsights)
    by (repeat constructor; eexists; reflexivity).
  split; [reflexivity|]. split; [exact H|].
  exact (filtered_at_rest isoParse seedInsights "  " eq_refl H).
Defined.


Lemma toBattleCardS_shares_tags_witness :
  seedStore !! 1%positive = Some (InsightObj (setTags (Some 2%positive) i2))
  ∧ seedStore !! 2%positive = Some (Arr ["AI"; "Search"; "Onboarding"])
  ∧ ∃ c σ',
      toBattleCardS isoParse enUS 1%positive seedStore = (Some c, σ')
      ∧ BattleCard.tags <$> readCard (<[2%positive:=Arr ["Retired"]]> σ') c
        = Some (Some ["Retired"]).
Proof.
  assert (H1 : seedStore !! 1%positive = Some (InsightObj (setTags (Some 2%positive) i2)))
    by reflexivity.
  assert (H2 : seedStore !! 2%positive = Some (Arr ["AI"; "Search"; "Onboarding"]))
    by reflexivity.
  split; [exact H1|]. split; [exact H2|].
  destruct (toBattleCardS_shares_tags isoParse enUS seedStore 1%positive _ 2%positive _
              H1 eq_refl H2) as (c & σ' & E & H).
  exists c, σ'. split; [exact E|]. exact (proj1 (H ["Retired"])).
Defined.

Lemma missing_tags_throw_witness :
  readInsight noTagsStore 1%positive = Some iNoTags
  ∧ (toBattleCardS isoParse enUS 1%positive noTagsStore).1 = None
  ∧ toBattleCard isoParse enUS iNoTags = None
  ∧ curate isoParse enUS iNoTags (curate isoParse enUS i2 [])
    = curate isoParse enUS i2 [].
Proof.
  assert (H : readInsight noTagsStore 1%positive = Some iNoTags) by reflexivity.
  split; [exact H|].
  exact (missing_tags_throw isoParse enUS noTagsStore 1%positive iNoTags
           (curate isoParse enUS i2 []) H eq_refl).
Defined.

Lemma curate_other_ids_witness :
  "i5" ≠ Insight.id i2
  ∧ cardsOf "i5" (curate isoParse enUS i2 (curate isoParse enUS i5 []))
    = cardsOf "i5" (curate isoParse enUS i5 []).
Proof.
  assert (H : "i5" ≠ Insight.id i2) by discriminate.
  split; [exact H|].
  exact (curate_other_ids isoParse enUS i2 (curate isoParse enUS i5 []) "i5" H).
Defined.

Lemma markdown_beyond_eight_witness :
  (8 ≤ length (seedInsights ++ seedInsights))%nat
  ∧ markdown isoParse enUS ((seedInsights ++ seedInsights) ++ [i1]) seedNow
    = markdown isoParse enUS (seedInsights ++ seedInsights) seedNow.
Proof.
  assert (H : (8 ≤ length (seedInsights ++ seedInsights))%nat) by (simpl; lia).
  split; [exact H|].
  exact (markdown_beyond_eight isoParse enUS (seedInsights ++ seedInsights) [i1] seedNow H).
Defined.

Lemma refresh_production_witness :
  [Received true (Some (JArray [i1; i2])); Rejected; Received true (Some JOther)] ≠ []
  ∧ refresh false
      [Received true (Some (JArray [i1; i2])); Rejected; Received true (Some JOther)]
      (AppState.mk [] true)
    = AppState.mk [i1; i2] false.
Proof.
  pose proof (refresh_production
    [Received true (Some (JArray [i1; i2])); Rejected; Received true (Some JOther)]
    (AppState.mk [] true)) as [Hi Hl].
  split; [discriminate|].
  specialize (Hl ltac:(discriminate)).
  destruct (refresh false _ _) as [ins ld]. simpl in Hi, Hl. by subst.
Defined.

Lemma localStorage_round_trip_witness :
  parseBool (stringifyBool true) = Some true
  ∧ stringifyBool true ≠ ""
  ∧ "ciapp_settings_v3" ≠ "ciapp_curated_v3"
  ∧ initialState parseBool
      (persist stringifyBool true (Some ∅) "ciapp_settings_v3" true)
      "ciapp_settings_v3" false
    = true.
Proof.
  assert (H1 : parseBool (stringifyBool true) = Some true) by reflexivity.
  assert (H2 : stringifyBool true ≠ "") by discriminate.
  assert (H3 : "ciapp_settings_v3" ≠ "ciapp_curated_v3") by discriminate.
  split; [exact H1|]. split; [exact H2|]. split; [exact H3|].
  exact (proj1 (localStorage_round_trip parseBool stringifyBool ∅
                  "ciapp_settings_v3" "ciapp_curated_v3" true false true H1 H2 H3)).
Defined.
